(** * The sequenced writer of the schema registry

    A shallow embedding of [pandaproxy/schema_registry/seq_writer.cc] and
    the properties of it that the design document states.

    The writer lives on shard 0.  It owns [_loaded_offset], reads the
    sharded store, talks to the kafka client and replays records into the
    store through [consume_to_store].  The store, the applier and the
    client are collaborators: their code is elsewhere, so they enter as
    interfaces (type classes) and every result below holds for all of
    their implementations.

    Coroutines are written in a state-and-exception monad over the state
    of shard 0; [co_await] is bind and [throw] keeps the state reached so
    far.  [model::offset] is a 64-bit signed integer; offsets are taken
    in [Z], which agrees with the code on every run without signed
    overflow (the only runs C++ defines). *)

From Stdlib Require Import ZArith List String Bool Lia.
Import ListNotations.
Local Open Scope Z_scope.

Set Implicit Arguments.

(** ** Data model *)

Definition offset := Z.
Definition node_id := Z.
Definition subject := string.
Definition schema_version := Z.
Definition schema_id := Z.
Definition schema_definition := string.

(** Modelled from the spec: the enumerators of [schema_type] are declared
    in types.h, which is not among the sources; section 3 names the type
    tags Avro, Protobuf and JSON. *)
Inductive schema_type := avro | protobuf | json.

(** Modelled from the spec: [compatibility_level] is an enum (section 3)
    declared in types.h; the writer only compares two levels with [==]. *)
Inductive compatibility_level :=
| compat_none | backward | backward_transitive
| forward | forward_transitive | full | full_transitive.

Definition compatibility_level_eqb (a b : compatibility_level) : bool :=
  match a, b with
  | compat_none, compat_none | backward, backward
  | backward_transitive, backward_transitive | forward, forward
  | forward_transitive, forward_transitive | full, full
  | full_transitive, full_transitive => true
  | _, _ => false
  end.

Inductive is_deleted := is_deleted_no | is_deleted_yes.
Inductive include_deleted := include_deleted_no | include_deleted_yes.

Module kafka.

(** [kafka::error_code]: the two enumerators the writer names and all
    the others. *)
Inductive error_code :=
| none
| unknown_topic_or_partition
| other (code : Z).

Definition is_none (ec : error_code) : bool :=
  match ec with none => true | _ => false end.

End kafka.

(** The typed keys and values of the internal topic, with the fields the
    writer initialises. *)
Record schema_key := {
  sk_seq : offset; sk_node : node_id;
  sk_sub : subject; sk_version : schema_version }.

Record schema_value := {
  sv_sub : subject; sv_version : schema_version; sv_type : schema_type;
  sv_id : schema_id; sv_schema : schema_definition; sv_deleted : is_deleted }.

Record config_key := {
  ck_seq : offset; ck_node : node_id; ck_sub : option subject }.

Record config_value := { cv_compat : compatibility_level }.

Record delete_subject_key := {
  dk_seq : offset; dk_node : node_id; dk_sub : subject }.

Record delete_subject_value := {
  dv_sub : subject; dv_version : schema_version }.

(** [std::variant<schema_key, delete_subject_key, config_key>]. *)
Inductive topic_key :=
| a_schema_key (k : schema_key)
| a_delete_subject_key (k : delete_subject_key)
| a_config_key (k : config_key).

Inductive topic_value :=
| a_schema_value (v : schema_value)
| a_delete_subject_value (v : delete_subject_value)
| a_config_value (v : config_value).

(** A record of a batch: the key and the value, [None] for a tombstone
    ([add_raw_kv(key, std::nullopt)]).  The byte encoding belongs to the
    codec and is not modelled. *)
Definition record := (topic_key * option topic_value)%type.
Definition record_batch := list record.

Definition record_count (b : record_batch) : Z := Z.of_nat (List.length b).

Definition key_seq (k : topic_key) : offset :=
  match k with
  | a_schema_key k => sk_seq k
  | a_delete_subject_key k => dk_seq k
  | a_config_key k => ck_seq k
  end.

Definition key_node (k : topic_key) : node_id :=
  match k with
  | a_schema_key k => sk_node k
  | a_delete_subject_key k => dk_node k
  | a_config_key k => ck_node k
  end.

(** [seq_marker_key_type]: the three enumerators of the switch in
    [delete_subject_permanent_inner], and [invalid] for whatever else
    reaches its [default] branch. *)
Inductive seq_marker_key_type :=
| invalid
| smk_schema
| smk_delete_subject
| smk_config.

Record seq_marker := {
  seq : offset; node : node_id;
  version : schema_version; key_type : seq_marker_key_type }.

Definition key_kind (k : topic_key) : seq_marker_key_type :=
  match k with
  | a_schema_key _ => smk_schema
  | a_delete_subject_key _ => smk_delete_subject
  | a_config_key _ => smk_config
  end.

(** What the store answers. *)
Record insert_result := {
  ir_version : schema_version; ir_id : schema_id; inserted : bool }.

Record subject_schema := {
  ss_sub : subject; ss_version : schema_version; ss_id : schema_id;
  ss_type : schema_type; ss_definition : schema_definition;
  ss_deleted : is_deleted }.

(** What the kafka client answers. *)
Record partition_produce_response := {
  base_offset : offset;
  error_code : kafka.error_code;
  error_message : option string }.

Record list_offset_partition_response := {
  lo_offset : offset;
  lo_error_code : kafka.error_code }.

Record list_offset_topic_response := {
  partitions : list list_offset_partition_response }.

Record list_offsets_response := {
  topics : list list_offset_topic_response }.

(** ** Exceptions and outcomes *)

Inductive exception :=
| kafka_exception (ec : kafka.error_code) (msg : string)
      (* kafka::exception(ec, msg) *)
| collaborator_exception (what : string)
      (* thrown inside the store or the fetch reader: not found, ... *)
| exhausted_retries
      (* the retry budget of a sequenced write is spent *)
| assertion_failure
      (* assert(...) does not hold *)
| undefined_behaviour.
      (* the C++ has no meaning here: back() of an empty vector, * of an
         empty optional *)

Inductive outcome (A : Type) :=
| Returned (a : A)
| Raised (e : exception).
Arguments Raised {A} e.

(** ** The collaborators *)

(** [sharded_store]: the queries the writer makes (they do not change the
    store; the store is mutated only by the applier). *)
Class StoreQueries (Store : Type) := {
  project_ids :
    subject -> schema_definition -> schema_type -> Store ->
    outcome insert_result;
  get_subject_schema :
    subject -> schema_version -> include_deleted -> Store ->
    outcome subject_schema;
  get_versions :
    subject -> include_deleted -> Store -> outcome (list schema_version);
  is_subject_deleted : subject -> Store -> outcome bool;
  get_compatibility : Store -> outcome compatibility_level;
  get_compatibility_sub : subject -> Store -> outcome compatibility_level;
  get_subject_written_at : subject -> Store -> outcome (list seq_marker);
  get_subject_version_written_at :
    subject -> schema_version -> Store -> outcome (list seq_marker) }.

(** Modelled from the spec: [consume_to_store] is defined in storage.h,
    which is not among the sources.  Section 4.3: the applier is a pure
    function from (offset, key, value or tombstone) to a store mutation;
    one [apply] overload per key type. *)
Class Applier (Store : Type) := {
  apply_schema :
    offset -> schema_key -> option schema_value -> Store -> Store;
  apply_delete_subject :
    offset -> delete_subject_key -> option delete_subject_value ->
    Store -> Store;
  apply_config :
    offset -> config_key -> option config_value -> Store -> Store }.

(** A decoded record of the internal topic as the fetch reader hands it
    to the applier. *)
Inductive log_record :=
| schema_record (k : schema_key) (v : option schema_value)
| delete_subject_record (k : delete_subject_key)
                        (v : option delete_subject_value)
| config_record (k : config_key) (v : option config_value).

(** [kafka::client::client] on the internal topic.  The client and the
    cluster behind it are a state machine of their own: other nodes
    write to the topic too, so every answer is the client's to give. *)
Class LogClient (Client : Type) := {
  list_offsets : Client -> list_offsets_response * Client;
  produce_record_batch :
    record_batch -> Client -> partition_produce_response * Client;
  (* make_client_fetch_batch_reader(client, tp, first, last): the
     records it delivers, or the exception it ends with *)
  fetch_batch_reader :
    offset -> offset -> Client -> outcome (list (offset * log_record)) * Client;
  (* make_error_code(ec).message() *)
  error_code_message : kafka.error_code -> string }.

(** The requests the writer has sent to the client, oldest first.  The
    code keeps no such list: it is the model's record of the traffic,
    so that "produces one batch" and "does not fetch" can be stated. *)
Inductive request :=
| req_list_offsets
| req_produce (b : record_batch)
| req_fetch (first last : offset).

Definition produced (rs : list request) : list record_batch :=
  flat_map (fun r => match r with req_produce b => [b] | _ => [] end) rs.

Section Writer.

Context {Store Client : Type}.
Context `{StoreQueries Store} `{Applier Store} `{LogClient Client}.

(** ** The state of shard 0 *)

Record world := {
  _loaded_offset : offset;          (* seq_writer::_loaded_offset *)
  _store : Store;                   (* seq_writer::_store *)
  _client : Client;                 (* seq_writer::_client.local() *)
  cfg_node_id : node_id;            (* config::shard_local_cfg().node_id() *)
  requests : list request }.

(** The three ways the state moves. *)
Definition loaded_at (o : offset) (w : world) : world :=
  {| _loaded_offset := o; _store := _store w; _client := _client w;
     cfg_node_id := cfg_node_id w; requests := requests w |}.

Definition stored (st : Store) (w : world) : world :=
  {| _loaded_offset := _loaded_offset w; _store := st;
     _client := _client w; cfg_node_id := cfg_node_id w;
     requests := requests w |}.

Definition answered (r : request) (c : Client) (w : world) : world :=
  {| _loaded_offset := _loaded_offset w; _store := _store w;
     _client := c; cfg_node_id := cfg_node_id w;
     requests := requests w ++ [r] |}.

Definition M (A : Type) := world -> outcome A * world.

Definition ret {A} (a : A) : M A := fun w => (Returned a, w).

Definition throw {A} (e : exception) : M A := fun w => (Raised e, w).

Definition bind {A B} (m : M A) (k : A -> M B) : M B :=
  fun w =>
    match m w with
    | (Returned a, w') => k a w'
    | (Raised e, w') => (Raised e, w')
    end.

Notation "x <- m ;; k" := (bind m (fun x => k))
  (at level 61, m at next level, right associativity).
Notation "m ;;; k" := (bind m (fun _ => k))
  (at level 61, right associativity).

Definition result {A} (m : M A) (w : world) : outcome A := fst (m w).
Definition after {A} (m : M A) (w : world) : world := snd (m w).

(** [assert(c)], checked as in a build that keeps assertions. *)
Definition assert (c : bool) : M unit :=
  if c then ret tt else throw assertion_failure.

(** A query on [_store]. *)
Definition ask {A} (q : Store -> outcome A) : M A :=
  fun w => (q (_store w), w).

(** [consume_to_store::apply] acting on [_store]. *)
Definition with_store (f : Store -> Store) : M unit :=
  fun w => (Returned tt, stored (f (_store w)) w).

Definition loaded_offset : M offset :=
  fun w => (Returned (_loaded_offset w), w).

Definition shard_local_cfg_node_id : M node_id :=
  fun w => (Returned (cfg_node_id w), w).

Definition set_loaded_offset (o : offset) : M unit :=
  fun w => (Returned tt, loaded_at o w).

(** A call of the client: the client moves on and the request is noted. *)
Definition call {A} (r : request) (f : Client -> A * Client) : M A :=
  fun w => (Returned (fst (f (_client w))), answered r (snd (f (_client w))) w).

Definition of_outcome {A} (o : outcome A) : M A := fun w => (o, w).

(** ** seq_writer.cc *)

(** [seq_writer::advance_offset_inner]. *)
Definition advance_offset_inner (o : offset) : M unit :=
  l <- loaded_offset ;;
  if l <? o then set_loaded_offset o else ret tt.

(** [seq_writer::advance_offset]: [advance_offset_inner] sent to shard 0. *)
Definition advance_offset (o : offset) : M unit := advance_offset_inner o.

(** The applier on a decoded record. *)
Definition apply_record (o : offset) (r : log_record) : M unit :=
  match r with
  | schema_record k v => with_store (apply_schema o k v)
  | delete_subject_record k v => with_store (apply_delete_subject o k v)
  | config_record k v => with_store (apply_config o k v)
  end.

(** Modelled from the spec: the batch consumer of [consume_to_store] is
    defined in storage.h, which is not among the sources.  Sections 4.2
    and 4.3: every fetched record goes through the applier, and after
    each one the loaded offset is advanced to the record's offset. *)
Fixpoint consume_to_store (rs : list (offset * log_record)) : M unit :=
  match rs with
  | [] => ret tt
  | (o, r) :: rest =>
      apply_record o r ;;;
      advance_offset o ;;;
      consume_to_store rest
  end.

(** [seq_writer::wait_for], the body sent to shard 0. *)
Definition wait_for (o : offset) : M unit :=
  l <- loaded_offset ;;
  if l <? o then
    fetched <- call (req_fetch (l + 1) (o + 1))
                    (fetch_batch_reader (l + 1) (o + 1)) ;;
    rs <- of_outcome fetched ;;
    consume_to_store rs
  else ret tt.

(** [seq_writer::read_sync]. *)
Definition read_sync : M unit :=
  offsets <- call req_list_offsets list_offsets ;;
  match topics offsets with
  | [topic] =>
      match partitions topic with
      | [partition] =>
          if negb (kafka.is_none (lo_error_code partition)) then
            let ec := lo_error_code partition in
            throw (kafka_exception ec (error_code_message ec))
          else wait_for (lo_offset partition - 1)
      | _ =>
          let ec := kafka.unknown_topic_or_partition in
          throw (kafka_exception ec (error_code_message ec))
      end
  | _ =>
      let ec := kafka.unknown_topic_or_partition in
      throw (kafka_exception ec (error_code_message ec))
  end.

(** [*res.error_message]. *)
Definition deref {A} (o : option A) : M A :=
  match o with
  | Some a => ret a
  | None => throw undefined_behaviour
  end.

(** [seq_writer::produce_and_check]. *)
Definition produce_and_check (write_at : offset) (batch : record_batch)
  : M bool :=
  res <- call (req_produce batch) (produce_record_batch batch) ;;
  if negb (kafka.is_none (error_code res)) then
    msg <- deref (error_message res) ;;
    throw (kafka_exception (error_code res) msg)
  else
    let wrote_at := base_offset res in
    if wrote_at =? write_at then ret true else ret false.

(** [as_record_batch(key, value)]: a batch of the one record. *)
Definition as_record_batch (k : topic_key) (v : topic_value) : record_batch :=
  [(k, Some v)].

(** [consume_to_store::apply(offset, key, value)] on a typed pair. *)
Definition applier_apply_schema o k v : M unit :=
  with_store (apply_schema o k v).
Definition applier_apply_delete_subject o k v : M unit :=
  with_store (apply_delete_subject o k v).
Definition applier_apply_config o k v : M unit :=
  with_store (apply_config o k v).

(** ** The sequenced operations *)

(** The [do_write] closure of [seq_writer::write_subject_version]. *)
Definition write_subject_version_do_write
    (sub : subject) (def : schema_definition) (type : schema_type)
    (write_at : offset) : M (option schema_id) :=
  projected <- ask (project_ids sub def type) ;;
  if negb (inserted projected) then ret (Some (ir_id projected))
  else
    my_node_id <- shard_local_cfg_node_id ;;
    let key := {| sk_seq := write_at; sk_node := my_node_id;
                  sk_sub := sub; sk_version := ir_version projected |} in
    let value := {| sv_sub := sub; sv_version := ir_version projected;
                    sv_type := type; sv_id := ir_id projected;
                    sv_schema := def; sv_deleted := is_deleted_no |} in
    let batch := as_record_batch (a_schema_key key) (a_schema_value value) in
    success <- produce_and_check write_at batch ;;
    if success then
      applier_apply_schema write_at key (Some value) ;;;
      advance_offset_inner write_at ;;;
      ret (Some (ir_id projected))
    else ret None.

(** The [do_write] closure of [seq_writer::write_config]. *)
Definition write_config_do_write
    (sub : option subject) (compat : compatibility_level)
    (write_at : offset) : M (option bool) :=
  existing <- match sub with
              | Some s => ask (get_compatibility_sub s)
              | None => ask get_compatibility
              end ;;
  if compatibility_level_eqb existing compat then ret (Some false)
  else
    my_node_id <- shard_local_cfg_node_id ;;
    let key := {| ck_seq := write_at; ck_node := my_node_id;
                  ck_sub := sub |} in
    let value := {| cv_compat := compat |} in
    let batch := as_record_batch (a_config_key key) (a_config_value value) in
    success <- produce_and_check write_at batch ;;
    if success then
      applier_apply_config write_at key (Some value) ;;;
      advance_offset_inner write_at ;;;
      ret (Some true)
    else ret None.

(** The [do_write] closure of [seq_writer::delete_subject_version]. *)
Definition delete_subject_version_do_write
    (sub : subject) (version : schema_version)
    (write_at : offset) : M (option bool) :=
  ss <- ask (get_subject_schema sub version include_deleted_yes) ;;
  my_node_id <- shard_local_cfg_node_id ;;
  let key := {| sk_seq := write_at; sk_node := my_node_id;
                sk_sub := sub; sk_version := version |} in
  let value := {| sv_sub := sub; sv_version := version;
                  sv_type := ss_type ss; sv_id := ss_id ss;
                  sv_schema := ss_definition ss;
                  sv_deleted := is_deleted_yes |} in
  let batch := as_record_batch (a_schema_key key) (a_schema_value value) in
  success <- produce_and_check write_at batch ;;
  if success then
    applier_apply_schema write_at key (Some value) ;;;
    advance_offset_inner write_at ;;;
    ret (Some true)
  else ret None.

(** [versions.back()]. *)
Fixpoint back {A} (l : list A) : M A :=
  match l with
  | [] => throw undefined_behaviour
  | [a] => ret a
  | _ :: rest => back rest
  end.

(** The [do_write] closure of [seq_writer::delete_subject_impermanent]. *)
Definition delete_subject_impermanent_do_write
    (sub : subject) (write_at : offset)
  : M (option (list schema_version)) :=
  versions <- ask (get_versions sub include_deleted_yes) ;;
  deleted <- ask (is_subject_deleted sub) ;;
  if (deleted : bool) then ret (Some versions)
  else
    my_node_id <- shard_local_cfg_node_id ;;
    version <- back versions ;;
    let key := {| dk_seq := write_at; dk_node := my_node_id;
                  dk_sub := sub |} in
    let value := {| dv_sub := sub; dv_version := version |} in
    let batch := as_record_batch (a_delete_subject_key key)
                                 (a_delete_subject_value value) in
    success <- produce_and_check write_at batch ;;
    if success then
      applier_apply_delete_subject write_at key (Some value) ;;;
      advance_offset_inner write_at ;;;
      ret (Some versions)
    else ret None.

(** ** Permanent deletion *)

(** One turn of the [for (auto s : sequences)] loop: the key rebuilt from
    the marker.  The [default] branch is [assert(false)]. *)
Definition tombstone_key (sub : subject) (s : seq_marker) : M topic_key :=
  match key_type s with
  | smk_schema =>
      ret (a_schema_key {| sk_seq := seq s; sk_node := node s;
                           sk_sub := sub; sk_version := version s |})
  | smk_delete_subject =>
      ret (a_delete_subject_key {| dk_seq := seq s; dk_node := node s;
                                   dk_sub := sub |})
  | smk_config =>
      ret (a_config_key {| ck_seq := seq s; ck_node := node s;
                           ck_sub := Some sub |})
  | invalid => throw assertion_failure
  end.

(** The loop itself: [keys.push_back(key)] and
    [rb.add_raw_kv(to_json_iobuf(key), std::nullopt)] side by side. *)
Fixpoint build_tombstones (sub : subject) (sequences : list seq_marker)
    (keys : list topic_key) (rb : record_batch)
  : M (list topic_key * record_batch) :=
  match sequences with
  | [] => ret (keys, rb)
  | s :: rest =>
      key <- tombstone_key sub s ;;
      build_tombstones sub rest (keys ++ [key]) (rb ++ [(key, None)])
  end.

(** [applier.apply(offset, key, std::nullopt)] by the alternative the
    variant holds. *)
Definition applier_apply_tombstone (o : offset) (k : topic_key) : M unit :=
  match k with
  | a_schema_key skey => applier_apply_schema o skey None
  | a_delete_subject_key dkey => applier_apply_delete_subject o dkey None
  | a_config_key ckey => applier_apply_config o ckey None
  end.

(** The [for (auto k : keys)] loop with its running [offset]. *)
Fixpoint replay_tombstones (keys : list topic_key) (o : offset) : M unit :=
  match keys with
  | [] => ret tt
  | k :: rest =>
      applier_apply_tombstone o k ;;;
      advance_offset_inner o ;;;
      replay_tombstones rest (o + 1)
  end.

(** [seq_writer::delete_subject_permanent_inner]. *)
Definition delete_subject_permanent_inner
    (sub : subject) (version : option schema_version)
  : M (list schema_version) :=
  sequences <- match version with
               | Some v => ask (get_subject_version_written_at sub v)
               | None => ask (get_subject_written_at sub)
               end ;;
  built <- build_tombstones sub sequences [] [] ;;
  let keys := fst built in
  let rb := snd built in
  assert (negb (match keys with [] => true | _ => false end)) ;;;
  let batch := rb in
  assert (0 <? record_count batch) ;;;
  res <- call (req_produce batch) (produce_record_batch batch) ;;
  if negb (kafka.is_none (error_code res)) then
    msg <- deref (error_message res) ;;
    throw (kafka_exception (error_code res) msg)
  else
    replay_tombstones keys (base_offset res) ;;;
    ret [].

(** [seq_writer::delete_subject_permanent]: the body run on shard 0.
    What its [get_units] does is the subject of [Permits] below. *)
Definition delete_subject_permanent
    (sub : subject) (version : option schema_version)
  : M (list schema_version) :=
  delete_subject_permanent_inner sub version.

(** ** The retry loop *)

(** The retry budget of the design (section 6, config surface). *)
Definition default_retry_budget : nat := 5.

(** Modelled from the spec: [sequenced_write] is a template of
    seq_writer.h, which is not among the sources.  Section 4.1: catch up
    to the tail; take [write_at = _loaded_offset + 1]; run the closure;
    when it answers "retry", catch up again and repeat from the
    prediction.  The loop is bounded by the retry budget: once [budget]
    attempts have collided the operation fails with
    [exhausted_retries]. *)
Fixpoint sequenced_write_loop {A} (budget : nat)
    (do_write : offset -> M (option A)) : M A :=
  match budget with
  | O => throw exhausted_retries
  | S budget' =>
      l <- loaded_offset ;;
      let write_at := l + 1 in
      r <- do_write write_at ;;
      match r with
      | Some v => ret v
      | None => read_sync ;;; sequenced_write_loop budget' do_write
      end
  end.

Definition sequenced_write_within {A} (budget : nat)
    (do_write : offset -> M (option A)) : M A :=
  read_sync ;;; sequenced_write_loop budget do_write.

Definition sequenced_write {A} (do_write : offset -> M (option A)) : M A :=
  sequenced_write_within default_retry_budget do_write.

(** The public operations. *)
Definition write_subject_version sub def type : M schema_id :=
  sequenced_write (write_subject_version_do_write sub def type).

Definition write_config sub compat : M bool :=
  sequenced_write (write_config_do_write sub compat).

Definition delete_subject_version sub version : M bool :=
  sequenced_write (delete_subject_version_do_write sub version).

Definition delete_subject_impermanent sub : M (list schema_version) :=
  sequenced_write (delete_subject_impermanent_do_write sub).

(** ** Vocabulary of the statements *)

(** An action never lowers [_loaded_offset]. *)
Definition nondecreasing {A} (m : M A) : Prop :=
  forall w, _loaded_offset w <= _loaded_offset (after m w).

(** The calls a user of the writer can make. *)
Inductive operation :=
| op_read_sync
| op_wait_for (o : offset)
| op_advance_offset (o : offset)
| op_write_subject_version
    (sub : subject) (def : schema_definition) (type : schema_type)
| op_write_config (sub : option subject) (compat : compatibility_level)
| op_delete_subject_version (sub : subject) (version : schema_version)
| op_delete_subject_impermanent (sub : subject)
| op_delete_subject_permanent (sub : subject) (version : option schema_version).

Definition perform (op : operation) (w : world) : world :=
  match op with
  | op_read_sync => after read_sync w
  | op_wait_for o => after (wait_for o) w
  | op_advance_offset o => after (advance_offset o) w
  | op_write_subject_version sub def type =>
      after (write_subject_version sub def type) w
  | op_write_config sub compat => after (write_config sub compat) w
  | op_delete_subject_version sub version =>
      after (delete_subject_version sub version) w
  | op_delete_subject_impermanent sub =>
      after (delete_subject_impermanent sub) w
  | op_delete_subject_permanent sub version =>
      after (delete_subject_permanent sub version) w
  end.

(** What the four closures do from their produce step on. *)
Definition commit {A} (write_at : offset) (batch : record_batch)
    (applied : Store -> Store) (v : A) : M (option A) :=
  success <- produce_and_check write_at batch ;;
  if (success : bool) then
    with_store applied ;;;
    advance_offset_inner write_at ;;;
    ret (Some v)
  else ret None.

(** One attempt of a sequenced operation that reaches its produce step,
    told by the answer of the client.  The batch is sent.  With no error
    in the answer: if the batch landed at [write_at] the record is
    applied, the loaded offset is [write_at] and [v] is returned; if it
    landed elsewhere nothing is applied, the loaded offset stays and the
    attempt answers [None].  With an error code in the answer the
    attempt raises [kafka::exception] with that code and the answer's
    message, and nothing is applied; an error code without a message has
    the code dereference an empty optional, which is undefined.  So the
    attempt succeeds exactly when the answer has no error and its base
    offset is [write_at]. *)
Definition lands_or_retries {A} (attempt : M (option A)) (w : world)
    (write_at : offset) (batch : record_batch)
    (applied : Store -> Store) (v : A) : Prop :=
  forall res c',
    produce_record_batch batch (_client w) = (res, c') ->
    let sent := answered (req_produce batch) c' w in
    (error_code res = kafka.none -> base_offset res = write_at ->
     attempt w
     = (Returned (Some v),
        loaded_at write_at (stored (applied (_store w)) sent)))
    /\ (error_code res = kafka.none -> base_offset res <> write_at ->
        attempt w = (Returned None, sent))
    /\ (forall msg,
           error_code res <> kafka.none ->
           error_message res = Some msg ->
           attempt w = (Raised (kafka_exception (error_code res) msg), sent))
    /\ (error_code res <> kafka.none ->
        error_message res = None ->
        attempt w = (Raised undefined_behaviour, sent))
    /\ ((exists v', result attempt w = Returned (Some v'))
        <-> error_code res = kafka.none /\ base_offset res = write_at).

(** The list-offsets response names exactly one topic with exactly one
    partition, whose error code is none. *)
Definition well_formed (r : list_offsets_response) : bool :=
  match topics r with
  | [topic] =>
      match partitions topic with
      | [partition] => kafka.is_none (lo_error_code partition)
      | _ => false
      end
  | _ => false
  end.

(** The store after a list of fetched records went through the applier,
    and the loaded offset after their offsets were reported. *)
Definition apply_log_record (o : offset) (r : log_record) (st : Store)
  : Store :=
  match r with
  | schema_record k v => apply_schema o k v st
  | delete_subject_record k v => apply_delete_subject o k v st
  | config_record k v => apply_config o k v st
  end.

Definition replayed (rs : list (offset * log_record)) (st : Store) : Store :=
  fold_left (fun st p => apply_log_record (fst p) (snd p) st) rs st.

Definition advanced (os : list offset) (l : offset) : offset :=
  fold_left Z.max os l.

(** A key rebuilt from a marker: same kind, seq and node; the subject is
    the one being deleted. *)
Definition rebuilds (sub : subject) (s : seq_marker) (k : topic_key) : Prop :=
  key_kind k = key_type s /\ key_seq k = seq s /\ key_node k = node s /\
  match k with
  | a_schema_key k => sk_sub k = sub /\ sk_version k = version s
  | a_delete_subject_key k => dk_sub k = sub
  | a_config_key k => ck_sub k = Some sub
  end.

Definition tombstones (keys : list topic_key) : record_batch :=
  map (fun k => (k, None)) keys.

Definition apply_tombstone (o : offset) (k : topic_key) (st : Store) : Store :=
  match k with
  | a_schema_key k => apply_schema o k None st
  | a_delete_subject_key k => apply_delete_subject o k None st
  | a_config_key k => apply_config o k None st
  end.

(** [n] offsets in a row from [base]. *)
Definition consecutive (base : offset) (n : nat) : list offset :=
  map (fun i => base + Z.of_nat i) (List.seq 0 n).

Definition tombstoned (base : offset) (keys : list topic_key) (st : Store)
  : Store :=
  fold_left (fun st p => apply_tombstone (fst p) (snd p) st)
            (combine (consecutive base (List.length keys)) keys) st.

(** The markers [delete_subject_permanent] asks the store for. *)
Definition written_at (sub : subject) (version : option schema_version)
    (st : Store) : outcome (list seq_marker) :=
  match version with
  | Some v => get_subject_version_written_at sub v st
  | None => get_subject_written_at sub st
  end.

(** The level [write_config] compares with. *)
Definition existing_compatibility (sub : option subject) (st : Store)
  : outcome compatibility_level :=
  match sub with
  | Some s => get_compatibility_sub s st
  | None => get_compatibility st
  end.

(** [k] attempts in a row collided: each time the closure, called at
    [_loaded_offset + 1], answered [None] and the catch-up that follows
    returned. *)
Fixpoint collides {A} (do_write : offset -> M (option A)) (k : nat)
    (w w' : world) : Prop :=
  match k with
  | O => w' = w
  | S k' =>
      exists w1 w2,
        do_write (_loaded_offset w + 1) w = (Returned None, w1) /\
        read_sync w1 = (Returned tt, w2) /\
        collides do_write k' w2 w'
  end.

(** The attempt that ends the loop raised, in the closure or in the
    catch-up after a collision. *)
Definition attempt_raises {A} (do_write : offset -> M (option A))
    (w : world) (e : exception) (w' : world) : Prop :=
  do_write (_loaded_offset w + 1) w = (Raised e, w') \/
  exists w1,
    do_write (_loaded_offset w + 1) w = (Returned None, w1) /\
    read_sync w1 = (Raised e, w').

(** ** More vocabulary: the four closures side by side *)

(** The mutations that go through a [do_write] closure. *)
Inductive mutation :=
| register (sub : subject) (def : schema_definition) (type : schema_type)
| set_compatibility (sub : option subject) (compat : compatibility_level)
| soft_delete_version (sub : subject) (version : schema_version)
| soft_delete_subject (sub : subject).

(** How an attempt ended, its value left aside. *)
Inductive attempt_end :=
| with_value
| with_retry
| with_exception (e : exception).

Definition how_ended {A} (o : outcome (option A)) : attempt_end :=
  match o with
  | Returned (Some _) => with_value
  | Returned None => with_retry
  | Raised e => with_exception e
  end.

Definition ended {A} (r : outcome (option A) * world) : attempt_end * world :=
  (how_ended (fst r), snd r).

(** The closure of a mutation, run at [write_at]. *)
Definition attempt (m : mutation) (write_at : offset) (w : world)
  : attempt_end * world :=
  match m with
  | register sub def type =>
      ended (write_subject_version_do_write sub def type write_at w)
  | set_compatibility sub compat =>
      ended (write_config_do_write sub compat write_at w)
  | soft_delete_version sub version =>
      ended (delete_subject_version_do_write sub version write_at w)
  | soft_delete_subject sub =>
      ended (delete_subject_impermanent_do_write sub write_at w)
  end.


(** A record as a sequenced attempt writes it: keyed at [write_at] by
    this node, with a value, of the key's kind. *)
Definition sequenced_record (write_at : offset) (me : node_id) (r : record)
  : Prop :=
  key_seq (fst r) = write_at /\
  key_node (fst r) = me /\
  match r with
  | (a_schema_key _, Some (a_schema_value _))
  | (a_delete_subject_key _, Some (a_delete_subject_value _))
  | (a_config_key _, Some (a_config_value _)) => True
  | _ => False
  end.

End Writer.

(** ** Doubles of the collaborators

    A small in-memory store with its applier, and a single-partition log
    that other nodes can write to as well.  The examples run on them. *)

Module Double.

Record registry := {
  reg_schemas : list schema_value;
  reg_compat : compatibility_level;
  reg_subject_compat : list (subject * compatibility_level);
  reg_deleted : list subject;
  reg_markers : list (subject * seq_marker) }.

Definition empty_registry : registry :=
  {| reg_schemas := []; reg_compat := compat_none;
     reg_subject_compat := []; reg_deleted := []; reg_markers := [] |}.

Definition schema_type_eqb (a b : schema_type) : bool :=
  match a, b with
  | avro, avro | protobuf, protobuf | json, json => true
  | _, _ => false
  end.

Definition not_found {A} : outcome A :=
  Raised (collaborator_exception "not found"%string).

Definition of_subject (sub : subject) (st : registry) : list schema_value :=
  filter (fun v => String.eqb (sv_sub v) sub) (reg_schemas st).

Definition same_definition def type (v : schema_value) : bool :=
  String.eqb (sv_schema v) def && schema_type_eqb (sv_type v) type.

Definition next_id (st : registry) : schema_id :=
  1 + fold_right Z.max 0 (map sv_id (reg_schemas st)).

Definition double_project_ids sub def type (st : registry)
  : outcome insert_result :=
  match find (same_definition def type) (of_subject sub st) with
  | Some v =>
      Returned {| ir_version := sv_version v; ir_id := sv_id v;
                  inserted := false |}
  | None =>
      let id := match find (same_definition def type) (reg_schemas st) with
                | Some v => sv_id v
                | None => next_id st
                end in
      Returned {| ir_version := 1 + Z.of_nat (List.length (of_subject sub st));
                  ir_id := id; inserted := true |}
  end.

Definition visible (inc : include_deleted) (v : schema_value) : bool :=
  match inc, sv_deleted v with
  | include_deleted_no, is_deleted_yes => false
  | _, _ => true
  end.

Definition double_get_subject_schema sub ver inc (st : registry)
  : outcome subject_schema :=
  match find (fun v => (sv_version v =? ver)%Z && visible inc v)
             (of_subject sub st) with
  | Some v =>
      Returned {| ss_sub := sub; ss_version := ver; ss_id := sv_id v;
                  ss_type := sv_type v; ss_definition := sv_schema v;
                  ss_deleted := sv_deleted v |}
  | None => not_found
  end.

Definition double_get_versions sub inc (st : registry)
  : outcome (list schema_version) :=
  match filter (visible inc) (of_subject sub st) with
  | [] => not_found
  | vs => Returned (map sv_version vs)
  end.

Definition double_is_subject_deleted sub (st : registry) : outcome bool :=
  Returned (existsb (String.eqb sub) (reg_deleted st)).

Definition double_get_compatibility (st : registry)
  : outcome compatibility_level :=
  Returned (reg_compat st).

Definition double_get_compatibility_sub sub (st : registry)
  : outcome compatibility_level :=
  match find (fun p => String.eqb (fst p) sub) (reg_subject_compat st) with
  | Some p => Returned (snd p)
  | None => Returned (reg_compat st)
  end.

Definition markers_of sub (st : registry) : list seq_marker :=
  map snd (filter (fun p => String.eqb (fst p) sub) (reg_markers st)).

Definition double_get_subject_written_at sub (st : registry)
  : outcome (list seq_marker) :=
  match markers_of sub st with
  | [] => not_found
  | ms => Returned ms
  end.

Definition is_schema_marker (ver : schema_version) (m : seq_marker) : bool :=
  match key_type m with
  | smk_schema => (version m =? ver)%Z
  | _ => false
  end.

Definition double_get_subject_version_written_at sub ver (st : registry)
  : outcome (list seq_marker) :=
  match filter (is_schema_marker ver) (markers_of sub st) with
  | [] => not_found
  | ms => Returned ms
  end.

#[export] Instance registry_queries : StoreQueries registry := {
  project_ids := double_project_ids;
  get_subject_schema := double_get_subject_schema;
  get_versions := double_get_versions;
  is_subject_deleted := double_is_subject_deleted;
  get_compatibility := double_get_compatibility;
  get_compatibility_sub := double_get_compatibility_sub;
  get_subject_written_at := double_get_subject_written_at;
  get_subject_version_written_at := double_get_subject_version_written_at }.

(** The applier of the double: every keyed record leaves its marker;
    a value is upserted, a tombstone removes what its key names.  A value
    that did not land at the offset its key expected lost a race and is
    passed over. *)
Definition mark sub (m : seq_marker) (st : registry) : registry :=
  {| reg_schemas := reg_schemas st; reg_compat := reg_compat st;
     reg_subject_compat := reg_subject_compat st;
     reg_deleted := reg_deleted st;
     reg_markers := reg_markers st ++ [(sub, m)] |}.

Definition same_kind (a b : seq_marker_key_type) : bool :=
  match a, b with
  | invalid, invalid | smk_schema, smk_schema
  | smk_delete_subject, smk_delete_subject | smk_config, smk_config => true
  | _, _ => false
  end.

Definition unmark sub (kind : seq_marker_key_type) (st : registry)
  : list (subject * seq_marker) :=
  filter (fun p => negb (String.eqb (fst p) sub
                         && same_kind (key_type (snd p)) kind))
         (reg_markers st).

Definition other_version sub ver (v : schema_value) : bool :=
  negb (String.eqb (sv_sub v) sub && (sv_version v =? ver)%Z).

Definition double_apply_schema (o : offset) (k : schema_key)
    (v : option schema_value) (st : registry) : registry :=
  let kept := filter (other_version (sk_sub k) (sk_version k))
                     (reg_schemas st) in
  match v with
  | Some v =>
      if negb (o =? sk_seq k)%Z then st else
      mark (sk_sub k)
           {| seq := o; node := sk_node k; version := sk_version k;
              key_type := smk_schema |}
           {| reg_schemas := kept ++ [v]; reg_compat := reg_compat st;
              reg_subject_compat := reg_subject_compat st;
              reg_deleted := reg_deleted st;
              reg_markers := reg_markers st |}
  | None =>
      {| reg_schemas := kept; reg_compat := reg_compat st;
         reg_subject_compat := reg_subject_compat st;
         reg_deleted := reg_deleted st;
         reg_markers :=
           filter (fun p => negb (String.eqb (fst p) (sk_sub k)
                                  && is_schema_marker (sk_version k) (snd p)))
                  (reg_markers st) |}
  end.

Definition double_apply_delete_subject (o : offset) (k : delete_subject_key)
    (v : option delete_subject_value) (st : registry) : registry :=
  let others := filter (fun s => negb (String.eqb s (dk_sub k)))
                       (reg_deleted st) in
  match v with
  | Some v =>
      if negb (o =? dk_seq k)%Z then st else
      mark (dk_sub k)
           {| seq := o; node := dk_node k; version := dv_version v;
              key_type := smk_delete_subject |}
           {| reg_schemas := reg_schemas st; reg_compat := reg_compat st;
              reg_subject_compat := reg_subject_compat st;
              reg_deleted := others ++ [dk_sub k];
              reg_markers := reg_markers st |}
  | None =>
      {| reg_schemas := reg_schemas st; reg_compat := reg_compat st;
         reg_subject_compat := reg_subject_compat st;
         reg_deleted := others;
         reg_markers := unmark (dk_sub k) smk_delete_subject st |}
  end.

Definition double_apply_config (o : offset) (k : config_key)
    (v : option config_value) (st : registry) : registry :=
  match ck_sub k with
  | Some sub =>
      let others := filter (fun p => negb (String.eqb (fst p) sub))
                           (reg_subject_compat st) in
      match v with
      | Some v =>
          if negb (o =? ck_seq k)%Z then st else
          mark sub
               {| seq := o; node := ck_node k; version := 0;
                  key_type := smk_config |}
               {| reg_schemas := reg_schemas st; reg_compat := reg_compat st;
                  reg_subject_compat := (sub, cv_compat v) :: others;
                  reg_deleted := reg_deleted st;
                  reg_markers := reg_markers st |}
      | None =>
          {| reg_schemas := reg_schemas st; reg_compat := reg_compat st;
             reg_subject_compat := others; reg_deleted := reg_deleted st;
             reg_markers := unmark sub smk_config st |}
      end
  | None =>
      match v with
      | Some v =>
          if negb (o =? ck_seq k)%Z then st else
          {| reg_schemas := reg_schemas st; reg_compat := cv_compat v;
             reg_subject_compat := reg_subject_compat st;
             reg_deleted := reg_deleted st; reg_markers := reg_markers st |}
      | None => st
      end
  end.

#[export] Instance registry_applier : Applier registry := {
  apply_schema := double_apply_schema;
  apply_delete_subject := double_apply_delete_subject;
  apply_config := double_apply_config }.

(** The log: the records of the single partition, offset 0 first; the
    batches other nodes get in just ahead of our next produce requests;
    and the error codes a troubled broker answers with. *)
Record topic := {
  log : list record;
  rivals : list record_batch;
  produce_fault : option kafka.error_code;
  offsets_fault : option kafka.error_code }.

Definition end_offset (t : topic) : offset := Z.of_nat (List.length (log t)).

Definition double_list_offsets (t : topic) : list_offsets_response * topic :=
  ({| topics :=
        [ {| partitions :=
               [ {| lo_offset := match offsets_fault t with
                                 | Some _ => -1
                                 | None => end_offset t
                                 end;
                    lo_error_code := match offsets_fault t with
                                     | Some ec => ec
                                     | None => kafka.none
                                     end |} ] |} ] |}, t).

Definition double_produce (b : record_batch) (t : topic)
  : partition_produce_response * topic :=
  match produce_fault t with
  | Some ec =>
      ({| base_offset := -1; error_code := ec;
          error_message := Some "produce failed"%string |}, t)
  | None =>
      let ahead := log t ++ hd [] (rivals t) in
      ({| base_offset := Z.of_nat (List.length ahead);
          error_code := kafka.none; error_message := None |},
       {| log := ahead ++ b; rivals := tl (rivals t);
          produce_fault := None; offsets_fault := offsets_fault t |})
  end.

Definition decode (r : record) : option log_record :=
  match r with
  | (a_schema_key k, None) => Some (schema_record k None)
  | (a_schema_key k, Some (a_schema_value v)) =>
      Some (schema_record k (Some v))
  | (a_delete_subject_key k, None) => Some (delete_subject_record k None)
  | (a_delete_subject_key k, Some (a_delete_subject_value v)) =>
      Some (delete_subject_record k (Some v))
  | (a_config_key k, None) => Some (config_record k None)
  | (a_config_key k, Some (a_config_value v)) =>
      Some (config_record k (Some v))
  | _ => None
  end.

Fixpoint decode_from (o : offset) (rs : list record) (first last : offset)
  : list (offset * log_record) :=
  match rs with
  | [] => []
  | r :: rest =>
      let tail := decode_from (o + 1) rest first last in
      if ((first <=? o) && (o <? last))%Z then
        match decode r with
        | Some d => (o, d) :: tail
        | None => tail
        end
      else tail
  end.

Definition double_fetch (first last : offset) (t : topic)
  : outcome (list (offset * log_record)) * topic :=
  (Returned (decode_from 0 (log t) first last), t).

Definition double_error_code_message (ec : kafka.error_code) : string :=
  match ec with
  | kafka.none => "none"%string
  | kafka.unknown_topic_or_partition => "unknown_topic_or_partition"%string
  | kafka.other _ => "error"%string
  end.

#[export] Instance topic_client : LogClient topic := {
  list_offsets := double_list_offsets;
  produce_record_batch := double_produce;
  fetch_batch_reader := double_fetch;
  error_code_message := double_error_code_message }.

(** A writer on node 1 that has loaded nothing yet. *)
Definition boot (st : registry) (t : topic) : @world registry topic :=
  {| _loaded_offset := -1; _store := st; _client := t;
     cfg_node_id := 1; requests := [] |}.

Definition quiet : topic :=
  {| log := []; rivals := []; produce_fault := None; offsets_fault := None |}.

(** A broker that refuses every produce request. *)
Definition refusing : topic :=
  {| log := []; rivals := [];
     produce_fault := Some (kafka.other 7); offsets_fault := None |}.

(** A broker that cannot tell the offsets of the topic. *)
Definition lost : topic :=
  {| log := []; rivals := []; produce_fault := None;
     offsets_fault := Some (kafka.other 6) |}.

(** Node 2 gets a per-subject level in just ahead of our first write. *)
Definition rival_batch : record_batch :=
  [ (a_config_key {| ck_seq := 0; ck_node := 2;
                     ck_sub := Some "other"%string |},
     Some (a_config_value {| cv_compat := forward |})) ].

Definition contended : topic :=
  {| log := []; rivals := [rival_batch];
     produce_fault := None; offsets_fault := None |}.


(** Other nodes get ahead of every one of our writes. *)
Definition crowded : topic :=
  {| log := []; rivals := repeat rival_batch 6;
     produce_fault := None; offsets_fault := None |}.

(** The writer after it registered the first schema of [s1] on a quiet
    topic, and after it went on to set a level for [s1] and soft-delete
    it; and a second node that boots on the topic as the first left
    it. *)
Definition fresh : @world registry topic := boot empty_registry quiet.

Definition seeded : @world registry topic :=
  after (write_subject_version "s1"%string "D1"%string avro) fresh.

Definition soft_deleted : @world registry topic :=
  after (delete_subject_impermanent "s1"%string)
        (after (write_config (Some "s1"%string) full) seeded).

Definition latecomer : @world registry topic :=
  boot empty_registry (_client soft_deleted).

End Double.

(** A store and a client that answer what they were told to answer,
    whatever they are asked: for the runs the doubles above do not
    reach. *)

Module Canned.

Record answers := {
  on_project_ids : outcome insert_result;
  on_get_subject_schema : outcome subject_schema;
  on_get_versions : outcome (list schema_version);
  on_is_subject_deleted : outcome bool;
  on_get_compatibility : outcome compatibility_level;
  on_written_at : outcome (list seq_marker) }.

#[export] Instance canned_queries : StoreQueries answers := {
  project_ids _ _ _ st := on_project_ids st;
  get_subject_schema _ _ _ st := on_get_subject_schema st;
  get_versions _ _ st := on_get_versions st;
  is_subject_deleted _ st := on_is_subject_deleted st;
  get_compatibility st := on_get_compatibility st;
  get_compatibility_sub _ st := on_get_compatibility st;
  get_subject_written_at _ st := on_written_at st;
  get_subject_version_written_at _ _ st := on_written_at st }.

#[export] Instance canned_applier : Applier answers := {
  apply_schema _ _ _ st := st;
  apply_delete_subject _ _ _ st := st;
  apply_config _ _ _ st := st }.

Record line := {
  on_produce : partition_produce_response;
  on_list_offsets : list_offsets_response;
  on_fetch : outcome (list (offset * log_record)) }.

#[export] Instance canned_client : LogClient line := {
  list_offsets c := (on_list_offsets c, c);
  produce_record_batch _ c := (on_produce c, c);
  fetch_batch_reader _ _ c := (on_fetch c, c);
  error_code_message _ := "error"%string }.

Definition down {A} : outcome A :=
  Raised (collaborator_exception "store is down"%string).

(** A store that fails every query. *)
Definition store_down : answers :=
  {| on_project_ids := down; on_get_subject_schema := down;
     on_get_versions := down; on_is_subject_deleted := down;
     on_get_compatibility := down; on_written_at := down |}.

(** A store that knows the subject but lists no version of it, and
    names a marker of no known key type. *)
Definition store_odd : answers :=
  {| on_project_ids := down; on_get_subject_schema := down;
     on_get_versions := Returned []; on_is_subject_deleted := Returned false;
     on_get_compatibility := down;
     on_written_at :=
       Returned [ {| seq := 4; node := 1; version := 1;
                     key_type := smk_schema |};
                  {| seq := 5; node := 1; version := 1;
                     key_type := invalid |} ] |}.

(** A store for which the versions query works and the deletion flag
    cannot be read. *)
Definition store_half : answers :=
  {| on_project_ids := down; on_get_subject_schema := down;
     on_get_versions := Returned [1]; on_is_subject_deleted := down;
     on_get_compatibility := down; on_written_at := down |}.

(** A line that answers every produce request with an error code at the
    very offset asked for, and delivers no record. *)
Definition line_failing (at_offset : offset) : line :=
  {| on_produce := {| base_offset := at_offset; error_code := kafka.other 7;
                      error_message := Some "not leader"%string |};
     on_list_offsets := {| topics := [] |};
     on_fetch := Returned [] |}.

Definition writer (st : answers) (c : line) (loaded : offset)
  : @world answers line :=
  {| _loaded_offset := loaded; _store := st; _client := c;
     cfg_node_id := 1; requests := [] |}.

End Canned.

(** ** The permits of shard 0

    [_write_sem] and [_wait_for_sem] are semaphores of one unit.  This
    part follows what the two lambdas that take them do with the units:
    the one of [delete_subject_permanent] and the one of [wait_for].

    Shard 0 runs one continuation at a time, each up to its next
    suspension.  A lambda sent to the shard by [invoke_on] is such a
    continuation: it runs from its first statement to its [return], and
    the future it returns completes later, when the body it started
    resumes after the produce or the fetch. *)

Module Permits.

Local Open Scope nat_scope.

(** [ss::future<ss::semaphore_units<>>], what [ss::get_units] returns:
    resolved with the units, or still waiting for them. *)
Inductive units_future :=
| resolved (units : nat)
| waiting (units : nat).

(** [ss::get_units(sem, n)] on a semaphore with [sem] units left. *)
Definition get_units (sem n : nat) : units_future * nat :=
  if n <=? sem then (resolved n, sem - n) else (waiting n, sem).

(** The end of the scope of the local that holds the future: resolved
    units go back to the semaphore; a future dropped while it waits
    returns its units the moment it is given them. *)
Definition end_of_scope (f : units_future) (sem : nat) : nat :=
  match f with
  | resolved n => sem + n
  | waiting _ => sem
  end.

Record shard := {
  _write_sem : nat;
  _wait_for_sem : nat;
  mutations_in_flight : nat;    (* bodies of mutations begun, not ended *)
  fetches_in_flight : nat }.    (* catch-up fetches begun, not ended *)

Definition shard0 : shard :=
  {| _write_sem := 1; _wait_for_sem := 1;
     mutations_in_flight := 0; fetches_in_flight := 0 |}.

(** The lambda of [delete_subject_permanent]:
    [auto units = ss::get_units(seq._write_sem, 1);
     return seq.delete_subject_permanent_inner(sub, version);]
    The inner coroutine starts and suspends at its produce; the lambda
    returns its future, and [units] goes out of scope. *)
Definition delete_subject_permanent_lambda (s : shard) : shard :=
  let (units, sem) := get_units (_write_sem s) 1 in
  let started := S (mutations_in_flight s) in
  {| _write_sem := end_of_scope units sem;
     _wait_for_sem := _wait_for_sem s;
     mutations_in_flight := started;
     fetches_in_flight := fetches_in_flight s |}.

(** The inner coroutine resumes after the produce, replays and returns. *)
Definition delete_subject_permanent_resumed (s : shard) : shard :=
  {| _write_sem := _write_sem s; _wait_for_sem := _wait_for_sem s;
     mutations_in_flight := pred (mutations_in_flight s);
     fetches_in_flight := fetches_in_flight s |}.

(** The lambda [fn] of [wait_for] on an offset not yet loaded:
    [auto sem_units = ss::get_units(seq._wait_for_sem, 1);
     return make_client_fetch_batch_reader(...).consume(...);] *)
Definition wait_for_lambda (s : shard) : shard :=
  let (sem_units, sem) := get_units (_wait_for_sem s) 1 in
  let started := S (fetches_in_flight s) in
  {| _write_sem := _write_sem s;
     _wait_for_sem := end_of_scope sem_units sem;
     mutations_in_flight := mutations_in_flight s;
     fetches_in_flight := started |}.

(** The fetch is consumed to its end. *)
Definition wait_for_resumed (s : shard) : shard :=
  {| _write_sem := _write_sem s; _wait_for_sem := _wait_for_sem s;
     mutations_in_flight := mutations_in_flight s;
     fetches_in_flight := pred (fetches_in_flight s) |}.

(** What shard 0 is given to run, in the order it runs it. *)
Inductive turn :=
| begin_delete_subject_permanent
| end_delete_subject_permanent
| begin_wait_for
| end_wait_for.

Definition take (t : turn) (s : shard) : shard :=
  match t with
  | begin_delete_subject_permanent => delete_subject_permanent_lambda s
  | end_delete_subject_permanent => delete_subject_permanent_resumed s
  | begin_wait_for => wait_for_lambda s
  | end_wait_for => wait_for_resumed s
  end.

Definition schedule (ts : list turn) (s : shard) : shard :=
  fold_left (fun s t => take t s) ts s.

(** For comparison, a body that keeps its unit until it ends (what
    [ss::with_semaphore] gives): it starts only when the unit is there
    and hands it back at its end. *)
Inductive held_turn :=
| begin_held
| end_held.

Definition take_held (t : held_turn) (s : shard) : shard :=
  match t with
  | begin_held =>
      match _write_sem s with
      | O => s      (* the body waits: nothing starts *)
      | S sem =>
          {| _write_sem := sem; _wait_for_sem := _wait_for_sem s;
             mutations_in_flight := S (mutations_in_flight s);
             fetches_in_flight := fetches_in_flight s |}
      end
  | end_held =>
      match mutations_in_flight s with
      | O => s      (* no body to end *)
      | S m =>
          {| _write_sem := S (_write_sem s);
             _wait_for_sem := _wait_for_sem s;
             mutations_in_flight := m;
             fetches_in_flight := fetches_in_flight s |}
      end
  end.

Definition schedule_held (ts : list held_turn) (s : shard) : shard :=
  fold_left (fun s t => take_held t s) ts s.

End Permits.

(** * Properties *)

Unset Implicit Arguments.

Section Properties.

Context {Store Client : Type}.
Context `{StoreQueries Store} `{Applier Store} `{LogClient Client}.

Local Abbreviation world := (@world Store Client).
Local Abbreviation M := (@M Store Client).
Local Abbreviation nondecreasing := (@nondecreasing Store Client _).

(** ** Running the monad *)

Lemma bind_returned {A B} (m : M A) (k : A -> M B) w a w' :
  m w = (Returned a, w') -> bind m k w = k a w'.
Proof. intros E. unfold bind. rewrite E. reflexivity. Qed.

Lemma bind_raised {A B} (m : M A) (k : A -> M B) w e w' :
  m w = (Raised e, w') -> bind m k w = (Raised e, w').
Proof. intros E. unfold bind. rewrite E. reflexivity. Qed.

Lemma after_bind {A B} (m : M A) (k : A -> M B) w :
  after (bind m k) w
  = match result m w with
    | Returned a => after (k a) (after m w)
    | Raised _ => after m w
    end.
Proof.
  unfold after, result, bind.
  destruct (m w) as [[a|e] w']; reflexivity.
Qed.

(** ** The loaded offset never goes back *)

Lemma nondecreasing_ret {A} (a : A) : nondecreasing (ret a).
Proof. intros w. cbn. lia. Qed.

Lemma nondecreasing_throw {A} e : nondecreasing (throw e : M A).
Proof. intros w. cbn. lia. Qed.

Lemma nondecreasing_bind {A B} (m : M A) (k : A -> M B) :
  nondecreasing m -> (forall a, nondecreasing (k a)) ->
  nondecreasing (bind m k).
Proof.
  intros Hm Hk w. rewrite after_bind.
  specialize (Hm w).
  destruct (result m w) as [a|e]; [|exact Hm].
  specialize (Hk a (after m w)). lia.
Qed.

Lemma nondecreasing_ask {A} (q : Store -> outcome A) : nondecreasing (ask q).
Proof. intros w. cbn. lia. Qed.

Lemma nondecreasing_with_store f : nondecreasing (with_store f).
Proof. intros w. cbn. lia. Qed.

Lemma nondecreasing_call {A} r (f : Client -> A * Client) :
  nondecreasing (call r f).
Proof. intros w. cbn. lia. Qed.

Lemma nondecreasing_of_outcome {A} (o : outcome A) :
  nondecreasing (of_outcome o).
Proof. intros w. cbn. lia. Qed.

Lemma nondecreasing_loaded_offset : nondecreasing loaded_offset.
Proof. intros w. cbn. lia. Qed.

Lemma nondecreasing_node_id : nondecreasing shard_local_cfg_node_id.
Proof. intros w. cbn. lia. Qed.

Lemma nondecreasing_assert c : nondecreasing (assert c).
Proof. destruct c; intros w; cbn; lia. Qed.

Lemma nondecreasing_deref {A} (o : option A) : nondecreasing (deref o).
Proof. destruct o; intros w; cbn; lia. Qed.

Lemma nondecreasing_back {A} (l : list A) : nondecreasing (back l).
Proof.
  induction l as [|a [|b l] IH]; try (intros w; cbn; lia).
  exact IH.
Qed.

Lemma advance_offset_inner_max o (w : world) :
  advance_offset_inner o w
  = (Returned tt, loaded_at (Z.max (_loaded_offset w) o) w).
Proof.
  unfold advance_offset_inner, bind, loaded_offset, set_loaded_offset, ret.
  destruct (Z.ltb_spec (_loaded_offset w) o).
  - rewrite Z.max_r by lia. reflexivity.
  - rewrite Z.max_l by lia. destruct w; reflexivity.
Qed.

Lemma nondecreasing_advance_offset_inner o :
  nondecreasing (advance_offset_inner o).
Proof.
  intros w. unfold after. rewrite advance_offset_inner_max. cbn. lia.
Qed.

Create HintDb nondecreasing.

#[local] Hint Resolve
  nondecreasing_ret nondecreasing_throw nondecreasing_ask
  nondecreasing_with_store nondecreasing_call nondecreasing_of_outcome
  nondecreasing_loaded_offset nondecreasing_node_id nondecreasing_assert
  nondecreasing_deref nondecreasing_back
  nondecreasing_advance_offset_inner : nondecreasing.

(** Through a coroutine: one bind after the other, one branch after the
    other. *)
Ltac nondecreasing :=
  repeat first
    [ progress auto with nondecreasing
    | apply nondecreasing_bind; [| intros ?]
    | match goal with
      | |- nondecreasing (if ?c then _ else _) => destruct c
      | |- nondecreasing (match ?x with _ => _ end) => destruct x
      end ].

Lemma nondecreasing_apply_record o r : nondecreasing (apply_record o r).
Proof. destruct r; apply nondecreasing_with_store. Qed.

Lemma nondecreasing_consume_to_store rs : nondecreasing (consume_to_store rs).
Proof.
  induction rs as [|[o r] rs IH]; cbn [consume_to_store].
  - auto with nondecreasing.
  - apply nondecreasing_bind; [apply nondecreasing_apply_record|intros _].
    apply nondecreasing_bind; [|intros _; exact IH].
    apply nondecreasing_advance_offset_inner.
Qed.

Lemma nondecreasing_wait_for o : nondecreasing (wait_for o).
Proof.
  unfold wait_for.
  apply nondecreasing_bind; [auto with nondecreasing|intros l].
  destruct (l <? o); [|auto with nondecreasing].
  apply nondecreasing_bind; [auto with nondecreasing|intros fetched].
  apply nondecreasing_bind; [auto with nondecreasing|intros rs].
  apply nondecreasing_consume_to_store.
Qed.

Lemma nondecreasing_read_sync : nondecreasing read_sync.
Proof.
  unfold read_sync.
  apply nondecreasing_bind; [auto with nondecreasing|intros offsets].
  destruct (topics offsets) as [|topic [|]]; auto with nondecreasing.
  destruct (partitions topic) as [|partition [|]]; auto with nondecreasing.
  destruct (negb _); auto with nondecreasing.
  apply nondecreasing_wait_for.
Qed.

Lemma nondecreasing_produce_and_check write_at batch :
  nondecreasing (produce_and_check write_at batch).
Proof. unfold produce_and_check. nondecreasing. Qed.

#[local] Hint Resolve
  nondecreasing_wait_for nondecreasing_read_sync
  nondecreasing_produce_and_check : nondecreasing.

Lemma nondecreasing_write_subject_version_do_write sub def type write_at :
  nondecreasing (write_subject_version_do_write sub def type write_at).
Proof.
  unfold write_subject_version_do_write, applier_apply_schema. nondecreasing.
Qed.

Lemma nondecreasing_write_config_do_write sub compat write_at :
  nondecreasing (write_config_do_write sub compat write_at).
Proof.
  unfold write_config_do_write, applier_apply_config. nondecreasing.
Qed.

Lemma nondecreasing_delete_subject_version_do_write sub version write_at :
  nondecreasing (delete_subject_version_do_write sub version write_at).
Proof.
  unfold delete_subject_version_do_write, applier_apply_schema. nondecreasing.
Qed.

Lemma nondecreasing_delete_subject_impermanent_do_write sub write_at :
  nondecreasing (delete_subject_impermanent_do_write sub write_at).
Proof.
  unfold delete_subject_impermanent_do_write, applier_apply_delete_subject.
  nondecreasing.
Qed.

Lemma nondecreasing_sequenced_write_loop {A} budget
    (do_write : offset -> M (option A)) :
  (forall write_at, nondecreasing (do_write write_at)) ->
  nondecreasing (sequenced_write_loop budget do_write).
Proof.
  intros Hf. induction budget as [|budget IH]; cbn [sequenced_write_loop].
  - auto with nondecreasing.
  - apply nondecreasing_bind; [auto with nondecreasing|intros l].
    apply nondecreasing_bind; [apply Hf|intros [v|]].
    + auto with nondecreasing.
    + apply nondecreasing_bind; [auto with nondecreasing|intros _; exact IH].
Qed.

Lemma nondecreasing_sequenced_write {A} (do_write : offset -> M (option A)) :
  (forall write_at, nondecreasing (do_write write_at)) ->
  nondecreasing (sequenced_write do_write).
Proof.
  intros Hf. unfold sequenced_write, sequenced_write_within.
  apply nondecreasing_bind; [auto with nondecreasing|intros _].
  apply nondecreasing_sequenced_write_loop, Hf.
Qed.

Lemma nondecreasing_build_tombstones sub sequences keys rb :
  nondecreasing (build_tombstones sub sequences keys rb).
Proof.
  revert keys rb.
  induction sequences as [|s rest IH]; intros keys rb; cbn [build_tombstones].
  - auto with nondecreasing.
  - apply nondecreasing_bind; [|intros key; apply IH].
    unfold tombstone_key. destruct (key_type s); auto with nondecreasing.
Qed.

Lemma nondecreasing_replay_tombstones keys o :
  nondecreasing (replay_tombstones keys o).
Proof.
  revert o. induction keys as [|k rest IH]; intros o; cbn [replay_tombstones].
  - auto with nondecreasing.
  - apply nondecreasing_bind; [|intros _].
    + destruct k; apply nondecreasing_with_store.
    + apply nondecreasing_bind; [auto with nondecreasing|intros _; apply IH].
Qed.

Lemma nondecreasing_delete_subject_permanent sub version :
  nondecreasing (delete_subject_permanent sub version).
Proof.
  unfold delete_subject_permanent, delete_subject_permanent_inner.
  apply nondecreasing_bind;
    [destruct version; auto with nondecreasing|intros sequences].
  apply nondecreasing_bind;
    [apply nondecreasing_build_tombstones|intros built].
  apply nondecreasing_bind; [auto with nondecreasing|intros _].
  apply nondecreasing_bind; [auto with nondecreasing|intros _].
  apply nondecreasing_bind; [auto with nondecreasing|intros res].
  destruct (negb _).
  - nondecreasing.
  - apply nondecreasing_bind;
      [apply nondecreasing_replay_tombstones|auto with nondecreasing].
Qed.

Lemma perform_nondecreasing op (w : world) :
  _loaded_offset w <= _loaded_offset (perform op w).
Proof.
  destruct op; cbn [perform].
  - apply nondecreasing_read_sync.
  - apply nondecreasing_wait_for.
  - apply nondecreasing_advance_offset_inner.
  - apply nondecreasing_sequenced_write,
      nondecreasing_write_subject_version_do_write.
  - apply nondecreasing_sequenced_write, nondecreasing_write_config_do_write.
  - apply nondecreasing_sequenced_write,
      nondecreasing_delete_subject_version_do_write.
  - apply nondecreasing_sequenced_write,
      nondecreasing_delete_subject_impermanent_do_write.
  - apply nondecreasing_delete_subject_permanent.
Qed.

(** C2: [advance_offset] and [advance_offset_inner] leave in
    [_loaded_offset] the maximum of its previous value and their argument,
    and no call of the writer, nor any sequence of calls, lowers it. *)
Theorem loaded_offset_never_decreases :
  (forall o (w : world),
      _loaded_offset (after (advance_offset_inner o) w)
      = Z.max (_loaded_offset w) o) /\
  (forall o (w : world),
      _loaded_offset (after (advance_offset o) w)
      = Z.max (_loaded_offset w) o) /\
  (forall op (w : world), _loaded_offset w <= _loaded_offset (perform op w)) /\
  (forall ops (w : world),
      _loaded_offset w
      <= _loaded_offset (fold_left (fun w op => perform op w) ops w)).
Proof.
  repeat split.
  - intros o w. unfold after. rewrite advance_offset_inner_max. reflexivity.
  - intros o w. unfold after, advance_offset.
    rewrite advance_offset_inner_max. reflexivity.
  - apply perform_nondecreasing.
  - intros ops. induction ops as [|op ops IH]; intros w; cbn [fold_left].
    + lia.
    + specialize (IH (perform op w)).
      pose proof (perform_nondecreasing op w). lia.
Qed.

(** ** Catching up *)

Lemma world_eta (w : world) :
  loaded_at (_loaded_offset w) (stored (_store w) w) = w.
Proof. destruct w; reflexivity. Qed.

Lemma consume_to_store_replays rs (w : world) :
  consume_to_store rs w
  = (Returned tt,
     loaded_at (advanced (map fst rs) (_loaded_offset w))
               (stored (replayed rs (_store w)) w)).
Proof.
  revert w. induction rs as [|[o r] rs IH]; intros w.
  - cbn. rewrite world_eta. reflexivity.
  - cbn [consume_to_store].
    assert (E : apply_record o r w
                = (Returned tt, stored (apply_log_record o r (_store w)) w))
      by (destruct r; reflexivity).
    rewrite (bind_returned _ _ _ _ _ E).
    unfold advance_offset.
    rewrite (bind_returned _ _ _ _ _ (advance_offset_inner_max o _)).
    rewrite IH. reflexivity.
Qed.

Lemma wait_for_clean o (w : world) :
  o <= _loaded_offset w -> wait_for o w = (Returned tt, w).
Proof.
  intros Ho. unfold wait_for, bind, loaded_offset.
  destruct (Z.ltb_spec (_loaded_offset w) o); [lia|reflexivity].
Qed.

Lemma wait_for_dirty o (w : world) :
  _loaded_offset w < o ->
  let first := _loaded_offset w + 1 in
  let last := o + 1 in
  let answer := fetch_batch_reader first last (_client w) in
  let asked := answered (req_fetch first last) (snd answer) w in
  wait_for o w
  = match fst answer with
    | Returned rs =>
        (Returned tt,
         loaded_at (advanced (map fst rs) (_loaded_offset w))
                   (stored (replayed rs (_store w)) asked))
    | Raised e => (Raised e, asked)
    end.
Proof.
  intros Ho. cbv zeta. unfold wait_for, bind, loaded_offset, call, of_outcome.
  destruct (Z.ltb_spec (_loaded_offset w) o); [|lia].
  destruct (fetch_batch_reader _ _ _) as [[rs|e] c']; cbn [fst snd].
  - rewrite consume_to_store_replays. reflexivity.
  - reflexivity.
Qed.

(** C8: [wait_for(offset)] with [offset <= _loaded_offset] returns at
    once, asks the client nothing and leaves the whole state as it was;
    with [offset > _loaded_offset] it asks the client for exactly the
    range from [_loaded_offset + 1] up to, not including, [offset + 1],
    and every record the reader delivers goes through the applier, in
    order, the loaded offset following the records' offsets. *)
Theorem wait_for_fetches_what_is_missing o (w : world) :
  (o <= _loaded_offset w ->
   wait_for o w = (Returned tt, w) /\
   requests (after (wait_for o) w) = requests w) /\
  (_loaded_offset w < o ->
   let first := _loaded_offset w + 1 in
   let last := o + 1 in
   let answer := fetch_batch_reader first last (_client w) in
   let asked := answered (req_fetch first last) (snd answer) w in
   requests (after (wait_for o) w) = requests w ++ [req_fetch first last] /\
   match fst answer with
   | Returned rs =>
       wait_for o w
       = (Returned tt,
          loaded_at (advanced (map fst rs) (_loaded_offset w))
                    (stored (replayed rs (_store w)) asked))
   | Raised e => wait_for o w = (Raised e, asked)
   end).
Proof.
  split; intros Ho.
  - unfold after. rewrite (wait_for_clean o w Ho). split; reflexivity.
  - cbv zeta. unfold after. rewrite (wait_for_dirty o w Ho).
    destruct (fst (fetch_batch_reader _ _ _)); split; reflexivity.
Qed.

Lemma read_sync_answer (w : world) :
  read_sync w
  = match topics (fst (list_offsets (_client w))) with
    | [topic] =>
        match partitions topic with
        | [partition] =>
            if negb (kafka.is_none (lo_error_code partition)) then
              throw (kafka_exception (lo_error_code partition)
                       (error_code_message (lo_error_code partition)))
            else wait_for (lo_offset partition - 1)
        | _ =>
            throw (kafka_exception kafka.unknown_topic_or_partition
                     (error_code_message kafka.unknown_topic_or_partition))
        end
    | _ =>
        throw (kafka_exception kafka.unknown_topic_or_partition
                 (error_code_message kafka.unknown_topic_or_partition))
    end (answered req_list_offsets (snd (list_offsets (_client w))) w).
Proof.
  reflexivity.
Qed.

(** C5: [read_sync] lists the offsets of the internal topic.  Unless the
    response names exactly one topic with exactly one partition whose
    error code is none, it ends with a [kafka::exception] (carrying
    [unknown_topic_or_partition] when the shape is wrong, the partition's
    own error code otherwise).  On a well-formed response it is
    [wait_for(offset - 1)]: it returns normally whenever that call does,
    which is always when nothing is missing or the reader delivers. *)
Theorem read_sync_checks_the_offsets_response (w : world) :
  let offsets := fst (list_offsets (_client w)) in
  let asked := answered req_list_offsets (snd (list_offsets (_client w))) w in
  (well_formed offsets = false ->
   exists ec,
     ec <> kafka.none /\
     read_sync w = (Raised (kafka_exception ec (error_code_message ec)), asked) /\
     (forall partition,
         topics offsets = [ {| partitions := [partition] |} ] ->
         ec = lo_error_code partition) /\
     ((forall partition,
          topics offsets <> [ {| partitions := [partition] |} ]) ->
      ec = kafka.unknown_topic_or_partition)) /\
  (forall partition,
      topics offsets = [ {| partitions := [partition] |} ] ->
      lo_error_code partition = kafka.none ->
      let target := lo_offset partition - 1 in
      read_sync w = wait_for target asked /\
      (target <= _loaded_offset w -> read_sync w = (Returned tt, asked)) /\
      (forall rs,
          fst (fetch_batch_reader (_loaded_offset w + 1) (target + 1)
                                  (_client asked)) = Returned rs ->
          result read_sync w = Returned tt)).
Proof.
  cbv zeta. unfold result. rewrite read_sync_answer.
  destruct (list_offsets (_client w)) as [offsets c']. cbn [fst snd].
  split.
  - unfold well_formed. intros Hwf.
    destruct (topics offsets) as [|[ps] [|topic' more]] eqn:Et.
    + exists kafka.unknown_topic_or_partition.
      split; [discriminate|]. split; [reflexivity|].
      split; [intros p E; discriminate E|reflexivity].
    + cbn [partitions] in *.
      destruct ps as [|partition [|partition' more]].
      * exists kafka.unknown_topic_or_partition.
        split; [discriminate|]. split; [reflexivity|].
        split; [intros p E; discriminate E|reflexivity].
      * destruct (lo_error_code partition) eqn:Ec;
          cbn [kafka.is_none negb] in *; [discriminate Hwf| |].
        -- exists kafka.unknown_topic_or_partition.
           split; [discriminate|]. split; [reflexivity|].
           split; [|reflexivity].
           intros p E. injection E as <-. symmetry. exact Ec.
        -- exists (kafka.other code).
           split; [discriminate|]. split; [reflexivity|].
           split.
           ++ intros p E. injection E as <-. symmetry. exact Ec.
           ++ intros Hno. exfalso. apply (Hno partition). reflexivity.
      * exists kafka.unknown_topic_or_partition.
        split; [discriminate|]. split; [reflexivity|].
        split; [intros p E; discriminate E|reflexivity].
    + exists kafka.unknown_topic_or_partition.
      split; [discriminate|]. split; [reflexivity|].
      split; [intros p E; discriminate E|reflexivity].
  - intros partition Et Ec.
    rewrite Et. cbn [partitions]. rewrite Ec. cbn [kafka.is_none negb].
    split; [reflexivity|]. split.
    + intros Hle. apply wait_for_clean. exact Hle.
    + intros rs Hrs.
      set (asked := answered req_list_offsets c' w) in *.
      destruct (Z_le_gt_dec (lo_offset partition - 1) (_loaded_offset asked))
        as [Hle|Hgt].
      * rewrite (wait_for_clean _ _ Hle). reflexivity.
      * rewrite wait_for_dirty by (cbn in Hgt |- *; lia).
        change (_loaded_offset asked) with (_loaded_offset w).
        rewrite Hrs. reflexivity.
Qed.

(** ** One attempt of a sequenced operation *)

Lemma produce_and_check_answer write_at batch (w : world) res c' :
  produce_record_batch batch (_client w) = (res, c') ->
  produce_and_check write_at batch w
  = (match error_code res with
     | kafka.none => Returned (base_offset res =? write_at)
     | _ =>
         match error_message res with
         | Some msg => Raised (kafka_exception (error_code res) msg)
         | None => Raised undefined_behaviour
         end
     end,
     answered (req_produce batch) c' w).
Proof.
  intros E. unfold produce_and_check, bind, call. rewrite E. cbn [fst snd].
  destruct (error_code res); cbn [kafka.is_none negb];
    try (destruct (error_message res); reflexivity).
  destruct (_ =? _); reflexivity.
Qed.

Lemma commit_lands_or_retries {A} write_at batch applied (v : A) (w : world) :
  write_at = _loaded_offset w + 1 ->
  lands_or_retries (commit write_at batch applied v) w write_at batch
                   applied v.
Proof.
  intros Hat res c' Eres. cbv zeta.
  pose proof (produce_and_check_answer write_at batch w _ _ Eres) as Hp.
  assert (Hland : error_code res = kafka.none -> base_offset res = write_at ->
          commit write_at batch applied v w
          = (Returned (Some v),
             loaded_at write_at
               (stored (applied (_store w))
                       (answered (req_produce batch) c' w)))).
  { intros Hnone Heq. rewrite Hnone in Hp.
    unfold commit. rewrite (bind_returned _ _ _ _ _ Hp).
    rewrite (proj2 (Z.eqb_eq _ _) Heq).
    unfold bind at 1. cbn [with_store].
    rewrite (bind_returned _ _ _ _ _ (advance_offset_inner_max write_at _)).
    cbn. rewrite Z.max_r by lia. reflexivity. }
  assert (Hmiss : error_code res = kafka.none -> base_offset res <> write_at ->
          commit write_at batch applied v w
          = (Returned None, answered (req_produce batch) c' w)).
  { intros Hnone Hne. rewrite Hnone in Hp.
    unfold commit. rewrite (bind_returned _ _ _ _ _ Hp).
    rewrite (proj2 (Z.eqb_neq _ _) Hne). reflexivity. }
  assert (Herr : forall msg,
          error_code res <> kafka.none ->
          error_message res = Some msg ->
          commit write_at batch applied v w
          = (Raised (kafka_exception (error_code res) msg),
             answered (req_produce batch) c' w)).
  { intros msg Hec Hmsg. unfold commit. rewrite Hmsg in Hp.
    destruct (error_code res) eqn:Ec; [congruence| |];
      apply (bind_raised _ _ _ _ _ Hp). }
  assert (Hundef : error_code res <> kafka.none ->
          error_message res = None ->
          commit write_at batch applied v w
          = (Raised undefined_behaviour, answered (req_produce batch) c' w)).
  { intros Hec Hmsg. unfold commit. rewrite Hmsg in Hp.
    destruct (error_code res) eqn:Ec; [congruence| |];
      apply (bind_raised _ _ _ _ _ Hp). }
  split; [exact Hland|]. split; [exact Hmiss|]. split; [exact Herr|].
  split; [exact Hundef|].
  split.
  - intros [v' Hv']. unfold result in Hv'.
    assert (Hnone : error_code res = kafka.none).
    { destruct (error_code res) eqn:Ec; [reflexivity| |];
        (destruct (error_message res) as [msg|] eqn:Em;
         [rewrite (Herr msg ltac:(discriminate) eq_refl) in Hv'
         |rewrite (Hundef ltac:(discriminate) eq_refl) in Hv']);
        discriminate. }
    split; [exact Hnone|].
    destruct (Z.eq_dec (base_offset res) write_at) as [E|N]; [exact E|].
    rewrite (Hmiss Hnone N) in Hv'. discriminate.
  - intros [Hnone E]. exists v. unfold result. rewrite (Hland Hnone E).
    reflexivity.
Qed.

Lemma back_last {A} (front : list A) (a : A) (w : world) :
  back (front ++ [a]) w = (Returned a, w).
Proof.
  induction front as [|b front IH]; [reflexivity|].
  cbn [app back]. destruct (front ++ [a]) eqn:E.
  - destruct front; discriminate.
  - exact IH.
Qed.

Lemma write_subject_version_reaches_commit
    sub def type write_at (w : world) projected :
  project_ids sub def type (_store w) = Returned projected ->
  inserted projected = true ->
  let key := {| sk_seq := write_at; sk_node := cfg_node_id w;
                sk_sub := sub; sk_version := ir_version projected |} in
  let value := {| sv_sub := sub; sv_version := ir_version projected;
                  sv_type := type; sv_id := ir_id projected;
                  sv_schema := def; sv_deleted := is_deleted_no |} in
  write_subject_version_do_write sub def type write_at w
  = commit write_at [(a_schema_key key, Some (a_schema_value value))]
           (apply_schema write_at key (Some value)) (ir_id projected) w.
Proof.
  intros Ep Hi. cbv zeta.
  unfold write_subject_version_do_write.
  unfold bind at 1. unfold ask at 1. rewrite Ep, Hi. cbn [negb].
  reflexivity.
Qed.

Lemma write_config_reaches_commit sub compat write_at (w : world) existing :
  existing_compatibility sub (_store w) = Returned existing ->
  existing <> compat ->
  let key := {| ck_seq := write_at; ck_node := cfg_node_id w;
                ck_sub := sub |} in
  let value := {| cv_compat := compat |} in
  write_config_do_write sub compat write_at w
  = commit write_at [(a_config_key key, Some (a_config_value value))]
           (apply_config write_at key (Some value)) true w.
Proof.
  intros Ee Hne. cbv zeta.
  unfold write_config_do_write.
  assert (Eq : (match sub with
                | Some s => ask (get_compatibility_sub s)
                | None => ask get_compatibility
                end : M _) w = (Returned existing, w)).
  { destruct sub; unfold ask; cbn in Ee; rewrite Ee; reflexivity. }
  rewrite (bind_returned _ _ _ _ _ Eq).
  replace (compatibility_level_eqb existing compat) with false
    by (destruct existing, compat; try reflexivity; congruence).
  reflexivity.
Qed.

Lemma delete_subject_version_reaches_commit
    sub version write_at (w : world) ss :
  get_subject_schema sub version include_deleted_yes (_store w)
  = Returned ss ->
  let key := {| sk_seq := write_at; sk_node := cfg_node_id w;
                sk_sub := sub; sk_version := version |} in
  let value := {| sv_sub := sub; sv_version := version;
                  sv_type := ss_type ss; sv_id := ss_id ss;
                  sv_schema := ss_definition ss;
                  sv_deleted := is_deleted_yes |} in
  delete_subject_version_do_write sub version write_at w
  = commit write_at [(a_schema_key key, Some (a_schema_value value))]
           (apply_schema write_at key (Some value)) true w.
Proof.
  intros Es. cbv zeta.
  unfold delete_subject_version_do_write.
  unfold bind at 1. unfold ask at 1. rewrite Es. reflexivity.
Qed.

Lemma delete_subject_impermanent_reaches_commit
    sub write_at (w : world) earlier last :
  get_versions sub include_deleted_yes (_store w)
  = Returned (earlier ++ [last]) ->
  is_subject_deleted sub (_store w) = Returned false ->
  let key := {| dk_seq := write_at; dk_node := cfg_node_id w;
                dk_sub := sub |} in
  let value := {| dv_sub := sub; dv_version := last |} in
  delete_subject_impermanent_do_write sub write_at w
  = commit write_at
           [(a_delete_subject_key key, Some (a_delete_subject_value value))]
           (apply_delete_subject write_at key (Some value))
           (earlier ++ [last]) w.
Proof.
  intros Ev Ed. cbv zeta.
  unfold delete_subject_impermanent_do_write.
  unfold bind at 1. unfold ask at 1. rewrite Ev.
  unfold bind at 1. unfold ask at 1. rewrite Ed.
  unfold bind at 1. unfold shard_local_cfg_node_id at 1.
  rewrite (bind_returned _ _ _ _ _ (back_last earlier last w)).
  reflexivity.
Qed.

(** C1 (amended): each of the four sequenced operations, called at the
    predicted offset [write_at = _loaded_offset + 1] in a state where it
    has a record to write, produces one batch of one record whose key has
    [seq = write_at].  When the produce response carries no error it
    succeeds exactly when the response's base offset equals [write_at]:
    on equality the record is applied to the store, [_loaded_offset]
    becomes [write_at] and a value is returned; on inequality it answers
    the absent value, nothing applied and nothing advanced.  A response
    with an error code raises [kafka::exception] with that code and the
    response's message instead, nothing applied either (the code
    dereferences the message: without one the run is undefined). *)
Theorem sequenced_attempt_lands_or_retries (w : world) write_at :
  write_at = _loaded_offset w + 1 ->
  (forall sub def type projected,
      project_ids sub def type (_store w) = Returned projected ->
      inserted projected = true ->
      let key := {| sk_seq := write_at; sk_node := cfg_node_id w;
                    sk_sub := sub; sk_version := ir_version projected |} in
      let value := {| sv_sub := sub; sv_version := ir_version projected;
                      sv_type := type; sv_id := ir_id projected;
                      sv_schema := def; sv_deleted := is_deleted_no |} in
      lands_or_retries
        (write_subject_version_do_write sub def type write_at) w write_at
        [(a_schema_key key, Some (a_schema_value value))]
        (apply_schema write_at key (Some value)) (ir_id projected)) /\
  (forall sub compat existing,
      existing_compatibility sub (_store w) = Returned existing ->
      existing <> compat ->
      let key := {| ck_seq := write_at; ck_node := cfg_node_id w;
                    ck_sub := sub |} in
      let value := {| cv_compat := compat |} in
      lands_or_retries
        (write_config_do_write sub compat write_at) w write_at
        [(a_config_key key, Some (a_config_value value))]
        (apply_config write_at key (Some value)) true) /\
  (forall sub version ss,
      get_subject_schema sub version include_deleted_yes (_store w)
      = Returned ss ->
      let key := {| sk_seq := write_at; sk_node := cfg_node_id w;
                    sk_sub := sub; sk_version := version |} in
      let value := {| sv_sub := sub; sv_version := version;
                      sv_type := ss_type ss; sv_id := ss_id ss;
                      sv_schema := ss_definition ss;
                      sv_deleted := is_deleted_yes |} in
      lands_or_retries
        (delete_subject_version_do_write sub version write_at) w write_at
        [(a_schema_key key, Some (a_schema_value value))]
        (apply_schema write_at key (Some value)) true) /\
  (forall sub earlier last,
      get_versions sub include_deleted_yes (_store w)
      = Returned (earlier ++ [last]) ->
      is_subject_deleted sub (_store w) = Returned false ->
      let key := {| dk_seq := write_at; dk_node := cfg_node_id w;
                    dk_sub := sub |} in
      let value := {| dv_sub := sub; dv_version := last |} in
      lands_or_retries
        (delete_subject_impermanent_do_write sub write_at) w write_at
        [(a_delete_subject_key key, Some (a_delete_subject_value value))]
        (apply_delete_subject write_at key (Some value))
        (earlier ++ [last])).
Proof.
  intros Hat. split; [|split; [|split]].
  - intros sub def type projected Ep Hi. cbv zeta.
    unfold lands_or_retries, result.
    rewrite (write_subject_version_reaches_commit
               sub def type write_at w projected Ep Hi).
    apply commit_lands_or_retries, Hat.
  - intros sub compat existing Ee Hne. cbv zeta.
    unfold lands_or_retries, result.
    rewrite (write_config_reaches_commit sub compat write_at w existing
               Ee Hne).
    apply commit_lands_or_retries, Hat.
  - intros sub version ss Es. cbv zeta.
    unfold lands_or_retries, result.
    rewrite (delete_subject_version_reaches_commit
               sub version write_at w ss Es).
    apply commit_lands_or_retries, Hat.
  - intros sub earlier last Ev Ed. cbv zeta.
    unfold lands_or_retries, result.
    rewrite (delete_subject_impermanent_reaches_commit
               sub write_at w earlier last Ev Ed).
    apply commit_lands_or_retries, Hat.
Qed.

Lemma write_subject_version_known_schema_is_noop_at
    sub def type write_at (w : world) projected :
  project_ids sub def type (_store w) = Returned projected ->
  inserted projected = false ->
  write_subject_version_do_write sub def type write_at w
  = (Returned (Some (ir_id projected)), w).
Proof.
  intros Ep Hi. unfold write_subject_version_do_write.
  unfold bind at 1. unfold ask at 1. rewrite Ep, Hi. reflexivity.
Qed.


(** ** Setting a compatibility level *)

Lemma compatibility_level_eqb_eq a b :
  compatibility_level_eqb a b = true <-> a = b.
Proof. destruct a, b; cbn; split; congruence. Qed.

Lemma write_config_asks sub (w : world) :
  (match sub with
   | Some s => ask (get_compatibility_sub s)
   | None => ask get_compatibility
   end : M _) w = (existing_compatibility sub (_store w), w).
Proof. destruct sub; reflexivity. Qed.

Lemma write_config_noop sub compat write_at (w : world) :
  existing_compatibility sub (_store w) = Returned compat ->
  write_config_do_write sub compat write_at w = (Returned (Some false), w).
Proof.
  intros Ee. unfold write_config_do_write.
  pose proof (write_config_asks sub w) as Ea. rewrite Ee in Ea.
  rewrite (bind_returned _ _ _ _ _ Ea).
  rewrite (proj2 (compatibility_level_eqb_eq compat compat) eq_refl).
  reflexivity.
Qed.

Lemma write_config_not_asked sub compat write_at (w : world) e :
  existing_compatibility sub (_store w) = Raised e ->
  write_config_do_write sub compat write_at w = (Raised e, w).
Proof.
  intros Ee. unfold write_config_do_write.
  pose proof (write_config_asks sub w) as Ea. rewrite Ee in Ea.
  apply (bind_raised _ _ _ _ _ Ea).
Qed.

Lemma write_config_written sub compat write_at (w : world) existing :
  existing_compatibility sub (_store w) = Returned existing ->
  existing <> compat ->
  let key := {| ck_seq := write_at; ck_node := cfg_node_id w;
                ck_sub := sub |} in
  let value := {| cv_compat := compat |} in
  let batch := [(a_config_key key, Some (a_config_value value))] in
  let answer := produce_record_batch batch (_client w) in
  let sent := answered (req_produce batch) (snd answer) w in
  write_config_do_write sub compat write_at w
  = match error_code (fst answer) with
    | kafka.none =>
        if base_offset (fst answer) =? write_at then
          (Returned (Some true),
           loaded_at (Z.max (_loaded_offset w) write_at)
                     (stored (apply_config write_at key (Some value)
                                           (_store w)) sent))
        else (Returned None, sent)
    | _ =>
        (match error_message (fst answer) with
         | Some msg => Raised (kafka_exception (error_code (fst answer)) msg)
         | None => Raised undefined_behaviour
         end, sent)
    end.
Proof.
  intros Ee Hne. cbv zeta.
  rewrite (write_config_reaches_commit sub compat write_at w existing Ee Hne).
  destruct (produce_record_batch _ (_client w)) as [res c'] eqn:Eres.
  cbn [fst snd].
  pose proof (produce_and_check_answer write_at _ w _ _ Eres) as Hp.
  unfold commit.
  destruct (error_code res).
  - rewrite (bind_returned _ _ _ _ _ Hp).
    destruct (base_offset res =? write_at); [|reflexivity].
    unfold bind at 1. cbn [with_store].
    rewrite (bind_returned _ _ _ _ _ (advance_offset_inner_max write_at _)).
    reflexivity.
  - destruct (error_message res); apply (bind_raised _ _ _ _ _ Hp).
  - destruct (error_message res); apply (bind_raised _ _ _ _ _ Hp).
Qed.

(** One attempt of [write_config].  The closure returns false, sends
    nothing to the client and changes nothing whenever the store's
    existing level (of
    the subject when one is given, the global one otherwise) equals the
    requested level, and false is returned in no other case.  It returns
    true exactly when its record was written: the store held another
    level, the batch was produced with no error and landed at [write_at].
    Once it has returned true, a store that reports the level the applier
    has just set makes the same call return false, with nothing produced,
    at whatever offset it is tried. *)
Theorem write_config_false_on_noop_true_on_write
    sub compat write_at (w : world) :
  let key := {| ck_seq := write_at; ck_node := cfg_node_id w;
                ck_sub := sub |} in
  let value := {| cv_compat := compat |} in
  let batch := [(a_config_key key, Some (a_config_value value))] in
  let answer := fst (produce_record_batch batch (_client w)) in
  let attempt := write_config_do_write sub compat write_at in
  (existing_compatibility sub (_store w) = Returned compat ->
   attempt w = (Returned (Some false), w)) /\
  (result attempt w = Returned (Some false) <->
   existing_compatibility sub (_store w) = Returned compat) /\
  (result attempt w = Returned (Some true) <->
   (exists existing,
       existing_compatibility sub (_store w) = Returned existing /\
       existing <> compat) /\
   error_code answer = kafka.none /\ base_offset answer = write_at) /\
  (result attempt w = Returned (Some true) ->
   requests (after attempt w) = requests w ++ [req_produce batch] /\
   _store (after attempt w)
   = apply_config write_at key (Some value) (_store w)) /\
  (result attempt w = Returned (Some true) ->
   existing_compatibility sub (_store (after attempt w)) = Returned compat ->
   forall write_at',
     write_config_do_write sub compat write_at' (after attempt w)
     = (Returned (Some false), after attempt w)).
Proof.
  cbv zeta. unfold result, after.
  destruct (existing_compatibility sub (_store w)) as [existing|e] eqn:Ee.
  2:{ rewrite (write_config_not_asked _ _ _ _ _ Ee). cbn [fst snd].
      repeat split; try discriminate.
      intros [[existing [E _]] _]. discriminate E. }
  destruct (compatibility_level_eqb existing compat) eqn:Eb.
  - apply compatibility_level_eqb_eq in Eb. subst existing.
    rewrite (write_config_noop _ _ _ _ Ee). cbn [fst snd].
    repeat split; try discriminate; try reflexivity.
    intros [[existing [E N]] _]. congruence.
  - assert (Hne : existing <> compat).
    { intros ->.
      rewrite (proj2 (compatibility_level_eqb_eq compat compat) eq_refl) in Eb.
      discriminate. }
    rewrite (write_config_written _ _ _ _ _ Ee Hne).
    destruct (produce_record_batch _ (_client w)) as [res c']. cbn [fst snd].
    split; [intros E; congruence|].
    destruct (error_code res) eqn:Ec.
    + destruct (Z.eqb_spec (base_offset res) write_at) as [Eo|No];
        cbn [fst snd].
      * split; [split; [discriminate|intros E; congruence]|].
        split; [split; [|reflexivity]|].
        -- intros _. split; [|split; [reflexivity|exact Eo]].
           exists existing. split; [reflexivity|exact Hne].
        -- split; [intros _; split; reflexivity|].
           intros _ Hlaw write_at'. apply write_config_noop. exact Hlaw.
      * split; [split; [discriminate|intros E; congruence]|].
        split; [split; [discriminate|]|].
        -- intros [_ [_ E]]. contradiction.
        -- split; discriminate.
    + destruct (error_message res); cbn [fst snd];
        (split; [split; [discriminate|intros E; congruence]|]);
        (split; [split; [discriminate|intros [_ [E _]]; discriminate E]|]);
        split; discriminate.
    + destruct (error_message res); cbn [fst snd];
        (split; [split; [discriminate|intros E; congruence]|]);
        (split; [split; [discriminate|intros [_ [E _]]; discriminate E]|]);
        split; discriminate.
Qed.

(** ** Permanent deletion *)

Lemma consecutive_S base n :
  consecutive base (S n) = base :: consecutive (base + 1) n.
Proof.
  unfold consecutive. cbn [List.seq map]. f_equal; [lia|].
  rewrite <- seq_shift, map_map. apply map_ext. intros i. lia.
Qed.

Lemma tombstoned_cons base k keys (st : Store) :
  tombstoned base (k :: keys) st
  = tombstoned (base + 1) keys (apply_tombstone base k st).
Proof.
  unfold tombstoned. cbn [List.length]. rewrite consecutive_S. reflexivity.
Qed.

Lemma advanced_consecutive base n l :
  (0 < n)%nat ->
  advanced (consecutive base n) l = Z.max l (base + Z.of_nat n - 1).
Proof.
  revert base l. induction n as [|n IH]; intros base l Hn; [lia|].
  rewrite consecutive_S. unfold advanced. cbn [fold_left].
  destruct n as [|n].
  - cbn. f_equal. lia.
  - fold (advanced (consecutive (base + 1) (S n)) (Z.max l base)).
    rewrite IH by lia. lia.
Qed.

Lemma replay_tombstones_replays keys o (w : world) :
  replay_tombstones keys o w
  = (Returned tt,
     loaded_at (advanced (consecutive o (List.length keys)) (_loaded_offset w))
               (stored (tombstoned o keys (_store w)) w)).
Proof.
  revert o w. induction keys as [|k keys IH]; intros o w.
  - cbn. rewrite world_eta. reflexivity.
  - cbn [replay_tombstones].
    assert (E : applier_apply_tombstone o k w
                = (Returned tt, stored (apply_tombstone o k (_store w)) w))
      by (destruct k; reflexivity).
    rewrite (bind_returned _ _ _ _ _ E).
    rewrite (bind_returned _ _ _ _ _ (advance_offset_inner_max o _)).
    rewrite IH. rewrite tombstoned_cons.
    cbn [List.length]. rewrite consecutive_S. reflexivity.
Qed.

Lemma tombstone_key_rebuilds sub s :
  key_type s <> invalid ->
  exists k,
    rebuilds sub s k /\
    forall w : world, tombstone_key sub s w = (Returned k, w).
Proof.
  intros Hv. unfold tombstone_key, rebuilds.
  destruct (key_type s) eqn:Ek; [congruence| | |];
    eexists; (split; [|intros w; reflexivity]); cbn; repeat split.
Qed.

Lemma tombstone_key_invalid sub s (w : world) :
  key_type s = invalid ->
  tombstone_key sub s w = (Raised assertion_failure, w).
Proof. intros Ek. unfold tombstone_key. rewrite Ek. reflexivity. Qed.

Lemma build_tombstones_outcome sub sequences :
  (Forall (fun s => key_type s <> invalid) sequences /\
   exists ks,
     Forall2 (rebuilds sub) sequences ks /\
     forall keys rb (w : world),
       build_tombstones sub sequences keys rb w
       = (Returned (keys ++ ks, rb ++ tombstones ks), w)) \/
  (Exists (fun s => key_type s = invalid) sequences /\
   forall keys rb (w : world),
     build_tombstones sub sequences keys rb w = (Raised assertion_failure, w)).
Proof.
  induction sequences as [|s rest IH].
  - left. split; [constructor|]. exists []. split; [constructor|].
    intros keys rb w. cbn. rewrite !app_nil_r. reflexivity.
  - assert (D : key_type s = invalid \/ key_type s <> invalid)
      by (destruct (key_type s); [left; reflexivity|right..]; discriminate).
    destruct D as [Ei|Hv].
    + right. split; [left; exact Ei|].
      intros keys rb w. cbn [build_tombstones].
      apply bind_raised, tombstone_key_invalid, Ei.
    + destruct (tombstone_key_rebuilds sub s Hv) as [k [Hk Ek]].
      destruct IH as [[Hall [ks [Hks Hrun]]]|[Hex Hrun]].
      * left. split; [constructor; assumption|].
        exists (k :: ks). split; [constructor; assumption|].
        intros keys rb w. cbn [build_tombstones].
        rewrite (bind_returned _ _ _ _ _ (Ek w)). rewrite Hrun.
        cbn [tombstones map]. rewrite <- !app_assoc. reflexivity.
      * right. split; [right; exact Hex|].
        intros keys rb w. cbn [build_tombstones].
        rewrite (bind_returned _ _ _ _ _ (Ek w)). apply Hrun.
Qed.

Lemma result_bind_returned {A B} (m : M A) (k : A -> M B) (w : world) b :
  result (bind m k) w = Returned b ->
  exists a w', m w = (Returned a, w') /\ result (k a) w' = Returned b.
Proof.
  unfold result, bind. destruct (m w) as [[a|e] w']; cbn [fst].
  - intros E. exists a, w'. split; [reflexivity|exact E].
  - discriminate.
Qed.

(** The whole of [delete_subject_permanent] when the store names its
    markers. *)
Lemma delete_subject_permanent_run sub version (w : world) sequences :
  written_at sub version (_store w) = Returned sequences ->
  (sequences = [] ->
   delete_subject_permanent sub version w = (Raised assertion_failure, w)) /\
  (Exists (fun s => key_type s = invalid) sequences ->
   delete_subject_permanent sub version w = (Raised assertion_failure, w)) /\
  (sequences <> [] ->
   Forall (fun s => key_type s <> invalid) sequences ->
   exists keys,
     Forall2 (rebuilds sub) sequences keys /\
     forall res c',
       produce_record_batch (tombstones keys) (_client w) = (res, c') ->
       let sent := answered (req_produce (tombstones keys)) c' w in
       (error_code res = kafka.none ->
        delete_subject_permanent sub version w
        = (Returned [],
           loaded_at (advanced (consecutive (base_offset res)
                                            (List.length keys))
                               (_loaded_offset w))
                     (stored (tombstoned (base_offset res) keys (_store w))
                             sent))) /\
       (error_code res <> kafka.none ->
        exists e, delete_subject_permanent sub version w = (Raised e, sent))).
Proof.
  intros Ew.
  assert (Ea : (match version with
                | Some v => ask (get_subject_version_written_at sub v)
                | None => ask (get_subject_written_at sub)
                end : M _) w = (Returned sequences, w)).
  { destruct version; unfold ask; cbn in Ew; rewrite Ew; reflexivity. }
  unfold delete_subject_permanent, delete_subject_permanent_inner.
  rewrite (bind_returned _ _ _ _ _ Ea).
  destruct (build_tombstones_outcome sub sequences)
    as [[Hall [ks [Hks Hrun]]]|[Hex Hrun]].
  - rewrite (bind_returned _ _ _ _ _ (Hrun [] [] w)).
    cbn [fst snd app].
    split; [|split].
    + intros ->. inversion Hks; subst. reflexivity.
    + intros Hex. exfalso.
      apply Exists_exists in Hex. destruct Hex as [s [Hin Hs]].
      rewrite Forall_forall in Hall. exact (Hall s Hin Hs).
    + intros Hne _. exists ks. split; [exact Hks|].
      intros res c' Eres. cbv zeta.
      destruct ks as [|k ks]; [inversion Hks; congruence|].
      assert (A1 : assert (negb match k :: ks with
                                | [] => true
                                | _ :: _ => false
                                end) w = (Returned tt, w)) by reflexivity.
      rewrite (bind_returned _ _ _ _ _ A1).
      assert (A2 : assert (0 <? record_count (tombstones (k :: ks))) w
                   = (Returned tt, w)).
      { unfold record_count. cbn [tombstones map List.length].
        replace (0 <? _) with true; [reflexivity|].
        symmetry. apply Z.ltb_lt. lia. }
      rewrite (bind_returned _ _ _ _ _ A2).
      assert (A3 : call (req_produce (tombstones (k :: ks)))
                        (produce_record_batch (tombstones (k :: ks))) w
                   = (Returned res,
                      answered (req_produce (tombstones (k :: ks))) c' w))
        by (unfold call; rewrite Eres; reflexivity).
      rewrite (bind_returned _ _ _ _ _ A3).
      split.
      * intros Hnone. rewrite Hnone. cbn [kafka.is_none negb].
        rewrite (bind_returned _ _ _ _ _ (replay_tombstones_replays _ _ _)).
        reflexivity.
      * intros Herr.
        destruct (error_code res) eqn:Ec; [congruence| |];
          cbn [kafka.is_none negb];
          destruct (error_message res); eexists; reflexivity.
  - rewrite (bind_raised _ _ _ _ _ (Hrun [] [] w)).
    split; [|split].
    + intros ->. inversion Hex.
    + reflexivity.
    + intros _ Hall. exfalso.
      apply Exists_exists in Hex. destruct Hex as [s [Hin Hs]].
      rewrite Forall_forall in Hall. exact (Hall s Hin Hs).
Qed.

Lemma rebuilt_keys_nonempty sub sequences keys :
  Forall2 (rebuilds sub) sequences keys -> sequences <> [] ->
  tombstones keys <> [] /\
  List.length (tombstones keys) = List.length sequences /\
  List.length keys = List.length sequences.
Proof.
  intros Hks Hne. pose proof (Forall2_length Hks) as Hl.
  unfold tombstones. rewrite length_map.
  repeat split; try congruence.
  destruct keys; [|discriminate].
  destruct sequences; [congruence|discriminate].
Qed.

(** C3: [delete_subject_permanent] asks the store for the markers of the
    subject, or of the one version of it.  For any markers the store
    names (not none of them, each of a known key type) and whatever
    offset the log gives, with no comparison to a predicted offset, the
    operation builds one tombstone per marker, in order, each a null
    value under a key of the marker's kind, seq and node; sends them all
    in one non-empty batch, its only request; then applies each tombstone
    at the next of the offsets [base_offset], [base_offset + 1], ...,
    advancing the loaded offset after each, which leaves it at the last
    of them unless it was beyond already.  In no run at all does it send
    more than one batch or an empty one. *)
Theorem delete_subject_permanent_tombstones_every_marker
    sub version (w : world) :
  let run := delete_subject_permanent sub version in
  (requests (after run w) = requests w \/
   exists batch,
     batch <> [] /\ requests (after run w) = requests w ++ [req_produce batch])
  /\
  (forall sequences,
      written_at sub version (_store w) = Returned sequences ->
      sequences <> [] ->
      Forall (fun s => key_type s <> invalid) sequences ->
      exists keys,
        Forall2 (rebuilds sub) sequences keys /\
        List.length (tombstones keys) = List.length sequences /\
        Forall (fun r => snd r = None) (tombstones keys) /\
        tombstones keys <> [] /\
        forall res c',
          produce_record_batch (tombstones keys) (_client w) = (res, c') ->
          error_code res = kafka.none ->
          let sent := answered (req_produce (tombstones keys)) c' w in
          let n := List.length keys in
          run w
          = (Returned [],
             loaded_at (advanced (consecutive (base_offset res) n)
                                 (_loaded_offset w))
                       (stored (tombstoned (base_offset res) keys (_store w))
                               sent)) /\
          requests (after run w)
          = requests w ++ [req_produce (tombstones keys)] /\
          _store (after run w) = tombstoned (base_offset res) keys (_store w) /\
          _loaded_offset (after run w)
          = Z.max (_loaded_offset w) (base_offset res + Z.of_nat n - 1)).
Proof.
  cbv zeta. split.
  - destruct (written_at sub version (_store w)) as [sequences|e] eqn:Ew.
    + destruct (delete_subject_permanent_run sub version w sequences Ew)
        as [Hnil [Hinv Hrun]].
      destruct sequences as [|s rest].
      { left. unfold after. rewrite (Hnil eq_refl). reflexivity. }
      destruct (build_tombstones_outcome sub (s :: rest))
        as [[Hall _]|[Hex _]].
      * destruct (Hrun ltac:(discriminate) Hall) as [keys [Hks Hsend]].
        destruct (rebuilt_keys_nonempty sub (s :: rest) keys Hks
                    ltac:(discriminate)) as [Hne _].
        right. exists (tombstones keys). split; [exact Hne|].
        destruct (produce_record_batch (tombstones keys) (_client w))
          as [res c'] eqn:Eres.
        destruct (Hsend res c' eq_refl) as [Hok Herr]. unfold after.
        assert (D : error_code res = kafka.none \/ error_code res <> kafka.none)
          by (destruct (error_code res); [left; reflexivity|right..];
              discriminate).
        destruct D as [Hnone|Hec].
        -- rewrite (Hok Hnone). reflexivity.
        -- destruct (Herr Hec) as [e He]. rewrite He. reflexivity.
      * left. unfold after. rewrite (Hinv Hex). reflexivity.
    + left. unfold after, delete_subject_permanent,
        delete_subject_permanent_inner.
      assert (Ea : (match version with
                    | Some v => ask (get_subject_version_written_at sub v)
                    | None => ask (get_subject_written_at sub)
                    end : M _) w = (Raised e, w)).
      { destruct version; unfold ask; cbn in Ew; rewrite Ew; reflexivity. }
      rewrite (bind_raised _ _ _ _ _ Ea). reflexivity.
  - intros sequences Ew Hne Hall.
    destruct (delete_subject_permanent_run sub version w sequences Ew)
      as [_ [_ Hrun]].
    destruct (Hrun Hne Hall) as [keys [Hks Hsend]].
    destruct (rebuilt_keys_nonempty sub sequences keys Hks Hne)
      as [Hnonempty [Hlen Hlen']].
    exists keys. split; [exact Hks|]. split; [exact Hlen|].
    split.
    { unfold tombstones. apply Forall_forall. intros r Hin.
      apply in_map_iff in Hin. destruct Hin as [k [<- _]]. reflexivity. }
    split; [exact Hnonempty|].
    intros res c' Eres Hnone.
    destruct (Hsend res c' Eres) as [Hok _]. specialize (Hok Hnone).
    unfold after. rewrite Hok. cbn [snd].
    repeat split.
    cbn [_loaded_offset loaded_at].
    apply advanced_consecutive.
    destruct keys; [|cbn; lia].
    destruct sequences; [congruence|discriminate].
Qed.

(** C10: whenever [delete_subject_permanent] returns, it returns the
    empty list of versions, whatever the subject, the version argument
    and the number of tombstones; and it does return whenever the store
    names markers, not none and each of a known key type, and the produce
    response carries no error. *)
Theorem delete_subject_permanent_returns_no_versions
    sub version (w : world) :
  (forall vs,
      result (delete_subject_permanent sub version) w = Returned vs ->
      vs = []) /\
  (forall sequences,
      written_at sub version (_store w) = Returned sequences ->
      sequences <> [] ->
      Forall (fun s => key_type s <> invalid) sequences ->
      exists keys,
        List.length keys = List.length sequences /\
        (error_code (fst (produce_record_batch (tombstones keys) (_client w)))
         = kafka.none ->
         result (delete_subject_permanent sub version) w = Returned [])).
Proof.
  split.
  - intros vs Hr.
    unfold delete_subject_permanent, delete_subject_permanent_inner in Hr.
    apply result_bind_returned in Hr. destruct Hr as [sequences [w1 [_ Hr]]].
    apply result_bind_returned in Hr. destruct Hr as [built [w2 [_ Hr]]].
    cbv zeta in Hr.
    apply result_bind_returned in Hr. destruct Hr as [[] [w3 [_ Hr]]].
    apply result_bind_returned in Hr. destruct Hr as [[] [w4 [_ Hr]]].
    apply result_bind_returned in Hr. destruct Hr as [res [w5 [_ Hr]]].
    destruct (negb (kafka.is_none (error_code res))).
    + apply result_bind_returned in Hr. destruct Hr as [msg [w6 [_ Hr]]].
      discriminate Hr.
    + apply result_bind_returned in Hr. destruct Hr as [[] [w6 [_ Hr]]].
      cbn in Hr. congruence.
  - intros sequences Ew Hne Hall.
    destruct (delete_subject_permanent_run sub version w sequences Ew)
      as [_ [_ Hrun]].
    destruct (Hrun Hne Hall) as [keys [Hks Hsend]].
    exists keys. split; [apply (rebuilt_keys_nonempty sub _ _ Hks Hne)|].
    destruct (produce_record_batch (tombstones keys) (_client w))
      as [res c'] eqn:Eres.
    cbn [fst]. intros Hnone.
    destruct (Hsend res c' eq_refl) as [Hok _].
    unfold result. rewrite (Hok Hnone). reflexivity.
Qed.

(** ** The retry loop *)

(** Every attempt is made at [_loaded_offset + 1]. *)
Lemma sequenced_write_loop_attempt {A} budget
    (do_write : offset -> M (option A)) (w : world) :
  sequenced_write_loop (S budget) do_write w
  = bind (do_write (_loaded_offset w + 1))
         (fun r => match r with
                   | Some v => ret v
                   | None =>
                       bind read_sync
                            (fun _ => sequenced_write_loop budget do_write)
                   end) w.
Proof. reflexivity. Qed.

Lemma sequenced_write_loop_ends {A} budget
    (do_write : offset -> M (option A)) (w : world) :
  exists k w_k,
    (k <= budget)%nat /\
    collides do_write k w w_k /\
    ((k = budget /\
      sequenced_write_loop budget do_write w
      = (Raised exhausted_retries, w_k)) \/
     ((k < budget)%nat /\
      exists v w',
        do_write (_loaded_offset w_k + 1) w_k = (Returned (Some v), w') /\
        sequenced_write_loop budget do_write w = (Returned v, w')) \/
     ((k < budget)%nat /\
      exists e w',
        attempt_raises do_write w_k e w' /\
        sequenced_write_loop budget do_write w = (Raised e, w'))).
Proof.
  revert w. induction budget as [|budget IH]; intros w.
  - exists 0%nat, w. split; [lia|]. split; [reflexivity|].
    left. split; reflexivity.
  - rewrite sequenced_write_loop_attempt.
    destruct (do_write (_loaded_offset w + 1) w) as [[[v|]|e] w1] eqn:Ed.
    + exists 0%nat, w. split; [lia|]. split; [reflexivity|].
      right; left. split; [lia|]. exists v, w1.
      split; [exact Ed|]. rewrite (bind_returned _ _ _ _ _ Ed). reflexivity.
    + rewrite (bind_returned _ _ _ _ _ Ed).
      destruct (read_sync w1) as [[[]|e] w2] eqn:Er.
      * rewrite (bind_returned _ _ _ _ _ Er).
        destruct (IH w2) as [k [w_k [Hk [Hc Hend]]]].
        exists (S k), w_k. split; [lia|].
        split; [exists w1, w2; repeat split; assumption|].
        destruct Hend as [[-> E]|[[Hlt E]|[Hlt E]]].
        -- left. split; [reflexivity|exact E].
        -- right; left. split; [lia|exact E].
        -- right; right. split; [lia|exact E].
      * rewrite (bind_raised _ _ _ _ _ Er).
        exists 0%nat, w. split; [lia|]. split; [reflexivity|].
        right; right. split; [lia|]. exists e, w2.
        split; [right; exists w1; split; assumption|reflexivity].
    + rewrite (bind_raised _ _ _ _ _ Ed).
      exists 0%nat, w. split; [lia|]. split; [reflexivity|].
      right; right. split; [lia|]. exists e, w1.
      split; [left; exact Ed|reflexivity].
Qed.

(** C4 (amended): a sequenced write first catches up and then makes at
    most [budget] attempts (5 by default), each at
    [_loaded_offset + 1], each but the last followed by a catch-up.  It
    always ends, in one of three ways: with the value of the first
    attempt that did not collide, after fewer than [budget] collisions;
    with [exhausted_retries], after exactly [budget] collisions; or with
    the exception that the catch-up or an attempt raised, which is passed
    on and not retried. *)
Theorem sequenced_write_ends_within_budget {A} budget
    (do_write : offset -> M (option A)) (w : world) :
  default_retry_budget = 5%nat /\
  sequenced_write do_write
  = sequenced_write_within default_retry_budget do_write /\
  ((exists e w',
       read_sync w = (Raised e, w') /\
       sequenced_write_within budget do_write w = (Raised e, w')) \/
   (exists w0 k w_k,
       read_sync w = (Returned tt, w0) /\
       (k <= budget)%nat /\
       collides do_write k w0 w_k /\
       ((k = budget /\
         sequenced_write_within budget do_write w
         = (Raised exhausted_retries, w_k)) \/
        ((k < budget)%nat /\
         exists v w',
           do_write (_loaded_offset w_k + 1) w_k = (Returned (Some v), w') /\
           sequenced_write_within budget do_write w = (Returned v, w')) \/
        ((k < budget)%nat /\
         exists e w',
           attempt_raises do_write w_k e w' /\
           sequenced_write_within budget do_write w = (Raised e, w'))))).
Proof.
  split; [reflexivity|]. split; [reflexivity|].
  unfold sequenced_write_within.
  destruct (read_sync w) as [[[]|e] w0] eqn:Er.
  - right. rewrite (bind_returned _ _ _ _ _ Er).
    destruct (sequenced_write_loop_ends budget do_write w0)
      as [k [w_k [Hk [Hc Hend]]]].
    exists w0, k, w_k. repeat split; assumption.
  - left. exists e, w0. split; [reflexivity|].
    apply (bind_raised _ _ _ _ _ Er).
Qed.

(** ** Whole operations that have nothing to write *)

Lemma produced_app rs rs' : produced (rs ++ rs') = produced rs ++ produced rs'.
Proof. unfold produced. apply flat_map_app. Qed.

Lemma wait_for_produces_nothing o (w : world) :
  produced (requests (after (wait_for o) w)) = produced (requests w).
Proof.
  unfold after.
  destruct (Z_le_gt_dec o (_loaded_offset w)) as [Hle|Hgt].
  - rewrite (wait_for_clean o w Hle). reflexivity.
  - rewrite wait_for_dirty by lia.
    destruct (fst (fetch_batch_reader _ _ _)); cbn [snd];
      cbn [requests loaded_at stored answered];
      rewrite produced_app; cbn; apply app_nil_r.
Qed.

Lemma read_sync_produces_nothing (w : world) :
  produced (requests (after read_sync w)) = produced (requests w).
Proof.
  unfold after. rewrite read_sync_answer.
  set (asked := answered req_list_offsets _ w).
  assert (Ha : produced (requests asked) = produced (requests w))
    by (unfold asked; cbn [requests answered]; rewrite produced_app;
        cbn; apply app_nil_r).
  destruct (topics _) as [|topic [|]]; try exact Ha.
  destruct (partitions topic) as [|partition [|]]; try exact Ha.
  destruct (negb _); [exact Ha|].
  fold (after (wait_for (lo_offset partition - 1)) asked).
  rewrite wait_for_produces_nothing. exact Ha.
Qed.

(** A first attempt that does not collide ends the operation. *)
Lemma sequenced_write_first_attempt {A} (do_write : offset -> M (option A))
    (w w1 w2 : world) v :
  read_sync w = (Returned tt, w1) ->
  do_write (_loaded_offset w1 + 1) w1 = (Returned (Some v), w2) ->
  sequenced_write do_write w = (Returned v, w2).
Proof.
  intros Er Ed. unfold sequenced_write, sequenced_write_within.
  rewrite (bind_returned _ _ _ _ _ Er).
  unfold default_retry_budget. rewrite sequenced_write_loop_attempt.
  rewrite (bind_returned _ _ _ _ _ Ed). reflexivity.
Qed.

(** [write_subject_version] as a whole on a schema the store knows once
    it has caught up: the id, nothing produced, the store as the
    catch-up left it. *)
Lemma write_subject_version_known_schema sub def type (w w1 : world)
    projected :
  read_sync w = (Returned tt, w1) ->
  project_ids sub def type (_store w1) = Returned projected ->
  inserted projected = false ->
  write_subject_version sub def type w = (Returned (ir_id projected), w1) /\
  produced (requests (after (write_subject_version sub def type) w))
  = produced (requests w).
Proof.
  intros Er Ep Hi.
  assert (E : write_subject_version sub def type w
              = (Returned (ir_id projected), w1)).
  { apply (sequenced_write_first_attempt _ w w1 w1 _ Er).
    apply write_subject_version_known_schema_is_noop_at; assumption. }
  split; [exact E|].
  unfold after. rewrite E. cbn [snd].
  pose proof (read_sync_produces_nothing w) as Hp.
  unfold after in Hp. rewrite Er in Hp. exact Hp.
Qed.


(** * More of seq_writer.cc *)

(** ** Reported offsets *)

Lemma loaded_at_loaded_at o o' (w : world) :
  loaded_at o (loaded_at o' w) = loaded_at o w.
Proof. reflexivity. Qed.

(** X1: reports of loaded offsets merge.  [advance_offset] never raises;
    two reports in a row amount to one report of the greater offset, so
    their order does not matter and a report made twice counts once. *)
Theorem advance_offset_reports_merge a b (w : world) :
  result (advance_offset a) w = Returned tt /\
  after (advance_offset b) (after (advance_offset a) w)
  = after (advance_offset (Z.max a b)) w /\
  after (advance_offset b) (after (advance_offset a) w)
  = after (advance_offset a) (after (advance_offset b) w) /\
  after (advance_offset a) (after (advance_offset a) w)
  = after (advance_offset a) w.
Proof.
  unfold result, after, advance_offset.
  repeat (rewrite advance_offset_inner_max; cbn [fst snd]).
  cbn [_loaded_offset loaded_at]. rewrite !loaded_at_loaded_at.
  repeat split; f_equal; lia.
Qed.

(** ** The produce step *)

Lemma commit_answer {A} write_at batch applied (v : A) (w : world) :
  let answer := produce_record_batch batch (_client w) in
  let sent := answered (req_produce batch) (snd answer) w in
  commit write_at batch applied v w
  = match error_code (fst answer) with
    | kafka.none =>
        if base_offset (fst answer) =? write_at then
          (Returned (Some v),
           loaded_at (Z.max (_loaded_offset w) write_at)
                     (stored (applied (_store w)) sent))
        else (Returned None, sent)
    | _ =>
        (match error_message (fst answer) with
         | Some msg => Raised (kafka_exception (error_code (fst answer)) msg)
         | None => Raised undefined_behaviour
         end, sent)
    end.
Proof.
  cbv zeta.
  destruct (produce_record_batch batch (_client w)) as [res c'] eqn:Eres.
  cbn [fst snd].
  pose proof (produce_and_check_answer write_at batch w _ _ Eres) as Hp.
  unfold commit.
  destruct (error_code res).
  - rewrite (bind_returned _ _ _ _ _ Hp).
    destruct (base_offset res =? write_at); [|reflexivity].
    unfold bind at 1. cbn [with_store].
    rewrite (bind_returned _ _ _ _ _ (advance_offset_inner_max write_at _)).
    reflexivity.
  - destruct (error_message res); apply (bind_raised _ _ _ _ _ Hp).
  - destruct (error_message res); apply (bind_raised _ _ _ _ _ Hp).
Qed.

(** X2: in [produce_and_check] an error code wins over the offset.
    Whatever the client answers, the only effect is the one produce
    request: store and loaded offset stay.  It returns a boolean only
    on a response without error code, true exactly when the base offset
    is [write_at]; a response with an error code and a message raises
    [kafka::exception] with that code and message, also when its base
    offset is [write_at]. *)
Theorem produce_and_check_error_wins write_at batch (w : world) :
  let answer := produce_record_batch batch (_client w) in
  let res := fst answer in
  let run := produce_and_check write_at batch in
  after run w = answered (req_produce batch) (snd answer) w /\
  (forall b,
      result run w = Returned b ->
      error_code res = kafka.none /\
      (b = true <-> base_offset res = write_at)) /\
  (error_code res = kafka.none ->
   result run w = Returned (base_offset res =? write_at)) /\
  (forall msg,
      error_code res <> kafka.none ->
      error_message res = Some msg ->
      result run w = Raised (kafka_exception (error_code res) msg)).
Proof.
  cbv zeta. unfold after, result.
  destruct (produce_record_batch batch (_client w)) as [res c'] eqn:Eres.
  rewrite (produce_and_check_answer write_at batch w _ _ Eres).
  cbn [fst snd]. split; [reflexivity|].
  destruct (error_code res) eqn:Ec.
  - split; [|split; [reflexivity|intros msg N; congruence]].
    intros b [= <-]. split; [reflexivity|]. apply Z.eqb_eq.
  - split; [|split; [discriminate|]].
    + destruct (error_message res); discriminate.
    + intros msg _ ->. reflexivity.
  - split; [|split; [discriminate|]].
    + destruct (error_message res); discriminate.
    + intros msg _ ->. reflexivity.
Qed.

(** ** The store fails or has nothing to write *)

Lemma write_subject_version_store_raises
    sub def type write_at (w : world) e :
  project_ids sub def type (_store w) = Raised e ->
  write_subject_version_do_write sub def type write_at w = (Raised e, w).
Proof.
  intros Ep. unfold write_subject_version_do_write.
  unfold bind at 1. unfold ask at 1. rewrite Ep. reflexivity.
Qed.

Lemma delete_subject_version_store_raises sub version write_at (w : world) e :
  get_subject_schema sub version include_deleted_yes (_store w) = Raised e ->
  delete_subject_version_do_write sub version write_at w = (Raised e, w).
Proof.
  intros Es. unfold delete_subject_version_do_write.
  unfold bind at 1. unfold ask at 1. rewrite Es. reflexivity.
Qed.

Lemma delete_subject_impermanent_versions_raises sub write_at (w : world) e :
  get_versions sub include_deleted_yes (_store w) = Raised e ->
  delete_subject_impermanent_do_write sub write_at w = (Raised e, w).
Proof.
  intros Ev. unfold delete_subject_impermanent_do_write.
  unfold bind at 1. unfold ask at 1. rewrite Ev. reflexivity.
Qed.

Lemma delete_subject_impermanent_deleted_raises
    sub write_at (w : world) versions e :
  get_versions sub include_deleted_yes (_store w) = Returned versions ->
  is_subject_deleted sub (_store w) = Raised e ->
  delete_subject_impermanent_do_write sub write_at w = (Raised e, w).
Proof.
  intros Ev Ed. unfold delete_subject_impermanent_do_write.
  unfold bind at 1. unfold ask at 1. rewrite Ev.
  unfold bind at 1. unfold ask at 1. rewrite Ed. reflexivity.
Qed.

Lemma delete_subject_impermanent_noop sub write_at (w : world) versions :
  get_versions sub include_deleted_yes (_store w) = Returned versions ->
  is_subject_deleted sub (_store w) = Returned true ->
  delete_subject_impermanent_do_write sub write_at w
  = (Returned (Some versions), w).
Proof.
  intros Ev Ed. unfold delete_subject_impermanent_do_write.
  unfold bind at 1. unfold ask at 1. rewrite Ev.
  unfold bind at 1. unfold ask at 1. rewrite Ed. reflexivity.
Qed.

Lemma delete_subject_impermanent_no_version sub write_at (w : world) :
  get_versions sub include_deleted_yes (_store w) = Returned [] ->
  is_subject_deleted sub (_store w) = Returned false ->
  delete_subject_impermanent_do_write sub write_at w
  = (Raised undefined_behaviour, w).
Proof.
  intros Ev Ed. unfold delete_subject_impermanent_do_write.
  unfold bind at 1. unfold ask at 1. rewrite Ev.
  unfold bind at 1. unfold ask at 1. rewrite Ed. reflexivity.
Qed.

Lemma delete_subject_permanent_store_raises sub version (w : world) e :
  written_at sub version (_store w) = Raised e ->
  delete_subject_permanent sub version w = (Raised e, w).
Proof.
  intros Ew. unfold delete_subject_permanent, delete_subject_permanent_inner.
  assert (Ea : (match version with
                | Some v => ask (get_subject_version_written_at sub v)
                | None => ask (get_subject_written_at sub)
                end : M _) w = (Raised e, w)).
  { destruct version; unfold ask; cbn in Ew; rewrite Ew; reflexivity. }
  apply (bind_raised _ _ _ _ _ Ea).
Qed.

(** Every attempt either ends where it started, not with a retry, or is
    the produce step on one record of the expected make. *)
Lemma attempt_shape m write_at (w : world) :
  (exists e, attempt m write_at w = (e, w) /\ e <> with_retry) \/
  (exists r A (applied : Store -> Store) (v : A),
      sequenced_record write_at (cfg_node_id w) r /\
      attempt m write_at w = ended (commit write_at [r] applied v w)).
Proof.
  destruct m as [sub def type|sub compat|sub version|sub]; cbn [attempt].
  - destruct (project_ids sub def type (_store w)) as [projected|e] eqn:Ep.
    + destruct (inserted projected) eqn:Hi.
      * right.
        rewrite (write_subject_version_reaches_commit _ _ _ _ _ _ Ep Hi).
        do 4 eexists. split; [|reflexivity]. repeat split.
      * left.
        rewrite (write_subject_version_known_schema_is_noop_at
                   _ _ _ _ _ _ Ep Hi).
        eexists. split; [reflexivity|discriminate].
    + left. rewrite (write_subject_version_store_raises _ _ _ _ _ _ Ep).
      eexists. split; [reflexivity|discriminate].
  - destruct (existing_compatibility sub (_store w)) as [existing|e] eqn:Ee.
    + destruct (compatibility_level_eqb existing compat) eqn:Eb.
      * apply compatibility_level_eqb_eq in Eb. subst existing.
        left. rewrite (write_config_noop _ _ _ _ Ee).
        eexists. split; [reflexivity|discriminate].
      * assert (Hne : existing <> compat).
        { intros ->.
          rewrite (proj2 (compatibility_level_eqb_eq compat compat) eq_refl)
            in Eb. discriminate. }
        right. rewrite (write_config_reaches_commit _ _ _ _ _ Ee Hne).
        do 4 eexists. split; [|reflexivity]. repeat split.
    + left. rewrite (write_config_not_asked _ _ _ _ _ Ee).
      eexists. split; [reflexivity|discriminate].
  - destruct (get_subject_schema sub version include_deleted_yes (_store w))
      as [ss|e] eqn:Es.
    + right. rewrite (delete_subject_version_reaches_commit _ _ _ _ _ Es).
      do 4 eexists. split; [|reflexivity]. repeat split.
    + left. rewrite (delete_subject_version_store_raises _ _ _ _ _ Es).
      eexists. split; [reflexivity|discriminate].
  - destruct (get_versions sub include_deleted_yes (_store w))
      as [versions|e] eqn:Ev.
    2:{ left. rewrite (delete_subject_impermanent_versions_raises _ _ _ _ Ev).
        eexists. split; [reflexivity|discriminate]. }
    destruct (is_subject_deleted sub (_store w)) as [[|]|e] eqn:Ed.
    + left. rewrite (delete_subject_impermanent_noop _ _ _ _ Ev Ed).
      eexists. split; [reflexivity|discriminate].
    + destruct versions as [|v0 vs].
      * left. rewrite (delete_subject_impermanent_no_version _ _ _ Ev Ed).
        eexists. split; [reflexivity|discriminate].
      * destruct (@exists_last _ (v0 :: vs) ltac:(discriminate))
          as [earlier [last E]].
        rewrite E in Ev. right.
        rewrite (delete_subject_impermanent_reaches_commit _ _ _ _ _ Ev Ed).
        do 4 eexists. split; [|reflexivity]. repeat split.
    + left.
      rewrite (delete_subject_impermanent_deleted_raises _ _ _ _ _ Ev Ed).
      eexists. split; [reflexivity|discriminate].
Qed.

(** ** What an attempt leaves behind *)

Lemma ended_commit {A} write_at batch applied (v : A) (w : world) :
  let answer := produce_record_batch batch (_client w) in
  let sent := answered (req_produce batch) (snd answer) w in
  ended (commit write_at batch applied v w)
  = match error_code (fst answer) with
    | kafka.none =>
        if base_offset (fst answer) =? write_at then
          (with_value,
           loaded_at (Z.max (_loaded_offset w) write_at)
                     (stored (applied (_store w)) sent))
        else (with_retry, sent)
    | _ =>
        (match error_message (fst answer) with
         | Some msg =>
             with_exception (kafka_exception (error_code (fst answer)) msg)
         | None => with_exception undefined_behaviour
         end, sent)
    end.
Proof.
  cbv zeta. rewrite commit_answer. unfold ended.
  destruct (error_code _).
  - destruct (_ =? _); reflexivity.
  - destruct (error_message _); reflexivity.
  - destruct (error_message _); reflexivity.
Qed.

(** X3: an attempt that does not end with a value has changed neither
    the store nor the loaded offset, whichever of the four closures it
    is, whatever the store and the client answer: a retry or an
    exception leaves nothing of the attempt in the local state. *)
Theorem failed_attempt_leaves_no_trace m write_at (w : world) :
  fst (attempt m write_at w) <> with_value ->
  _store (snd (attempt m write_at w)) = _store w /\
  _loaded_offset (snd (attempt m write_at w)) = _loaded_offset w.
Proof.
  destruct (attempt_shape m write_at w)
    as [[e [-> _]]|[r [A [applied [v [_ ->]]]]]].
  - intros _. split; reflexivity.
  - rewrite ended_commit.
    destruct (error_code _).
    + destruct (_ =? _); cbn [fst snd]; [congruence|].
      intros _. split; reflexivity.
    + intros _. split; reflexivity.
    + intros _. split; reflexivity.
Qed.

(** X4: an attempt sends at most one request.  Either it sends nothing,
    and then it does not answer retry; or it sends one produce request
    of one record, and that record is keyed at [write_at] by this node
    and carries a value of its key's kind, never a tombstone. *)
Theorem attempt_sends_one_sequenced_record m write_at (w : world) :
  (requests (snd (attempt m write_at w)) = requests w /\
   fst (attempt m write_at w) <> with_retry) \/
  (exists r,
      sequenced_record write_at (cfg_node_id w) r /\
      requests (snd (attempt m write_at w))
      = requests w ++ [req_produce [r]]).
Proof.
  destruct (attempt_shape m write_at w)
    as [[e [-> He]]|[r [A [applied [v [Hr ->]]]]]].
  - left. split; [reflexivity|exact He].
  - right. exists r. split; [exact Hr|].
    rewrite ended_commit.
    destruct (error_code _); [destruct (_ =? _)| |]; reflexivity.
Qed.

(** X5: [delete_subject_impermanent] on a subject the store already
    flags as deleted returns the versions the store lists and does
    nothing else: no request, same store, same loaded offset. *)
Theorem delete_subject_impermanent_already_deleted
    sub write_at (w : world) versions :
  get_versions sub include_deleted_yes (_store w) = Returned versions ->
  is_subject_deleted sub (_store w) = Returned true ->
  delete_subject_impermanent_do_write sub write_at w
  = (Returned (Some versions), w) /\
  attempt (soft_delete_subject sub) write_at w = (with_value, w).
Proof.
  intros Ev Ed. cbn [attempt].
  rewrite (delete_subject_impermanent_noop sub write_at w versions Ev Ed).
  split; reflexivity.
Qed.

(** X6: [delete_subject_version] has no no-op path.  It never answers
    false; and whenever the store has the version, deleted already or
    not, it sends the version's record again with the stored type, id
    and definition and [deleted] set. *)
Theorem delete_subject_version_always_writes
    sub version write_at (w : world) :
  result (delete_subject_version_do_write sub version write_at) w
  <> Returned (Some false) /\
  (forall ss,
      get_subject_schema sub version include_deleted_yes (_store w)
      = Returned ss ->
      let key := {| sk_seq := write_at; sk_node := cfg_node_id w;
                    sk_sub := sub; sk_version := version |} in
      let value := {| sv_sub := sub; sv_version := version;
                      sv_type := ss_type ss; sv_id := ss_id ss;
                      sv_schema := ss_definition ss;
                      sv_deleted := is_deleted_yes |} in
      requests (after (delete_subject_version_do_write sub version write_at) w)
      = requests w
        ++ [req_produce [(a_schema_key key, Some (a_schema_value value))]]).
Proof.
  unfold result, after. split.
  - destruct (get_subject_schema sub version include_deleted_yes (_store w))
      as [ss|e] eqn:Es.
    + rewrite (delete_subject_version_reaches_commit _ _ _ _ _ Es).
      rewrite commit_answer.
      destruct (error_code _); [destruct (_ =? _)| |];
        try destruct (error_message _); discriminate.
    + rewrite (delete_subject_version_store_raises _ _ _ _ _ Es).
      discriminate.
  - intros ss Es. cbv zeta.
    rewrite (delete_subject_version_reaches_commit _ _ _ _ _ Es).
    rewrite commit_answer.
    destruct (error_code _); [destruct (_ =? _)| |]; reflexivity.
Qed.

(** X7: a store query that raises ends the operation there and then,
    with that exception and the state untouched: nothing has been sent
    to the client.  This holds for the projection of
    [write_subject_version], the level lookup of [write_config], the
    schema lookup of [delete_subject_version], both queries of
    [delete_subject_impermanent] and the marker query of
    [delete_subject_permanent]. *)
Theorem store_exception_ends_the_operation (w : world) e write_at :
  (forall sub def type,
      project_ids sub def type (_store w) = Raised e ->
      write_subject_version_do_write sub def type write_at w = (Raised e, w))
  /\
  (forall sub compat,
      existing_compatibility sub (_store w) = Raised e ->
      write_config_do_write sub compat write_at w = (Raised e, w)) /\
  (forall sub version,
      get_subject_schema sub version include_deleted_yes (_store w)
      = Raised e ->
      delete_subject_version_do_write sub version write_at w = (Raised e, w))
  /\
  (forall sub,
      get_versions sub include_deleted_yes (_store w) = Raised e ->
      delete_subject_impermanent_do_write sub write_at w = (Raised e, w)) /\
  (forall sub versions,
      get_versions sub include_deleted_yes (_store w) = Returned versions ->
      is_subject_deleted sub (_store w) = Raised e ->
      delete_subject_impermanent_do_write sub write_at w = (Raised e, w)) /\
  (forall sub version,
      written_at sub version (_store w) = Raised e ->
      delete_subject_permanent sub version w = (Raised e, w)).
Proof.
  split; [|split; [|split; [|split; [|split]]]].
  - intros sub def type. apply write_subject_version_store_raises.
  - intros sub compat. apply write_config_not_asked.
  - intros sub version. apply delete_subject_version_store_raises.
  - intros sub. apply delete_subject_impermanent_versions_raises.
  - intros sub versions. apply delete_subject_impermanent_deleted_raises.
  - intros sub version. apply delete_subject_permanent_store_raises.
Qed.

(** X8: [delete_subject_permanent] stops at its assertions before
    anything leaves the node.  When the store names no marker, or names
    one of no known key type among however many good ones, the operation
    ends with the failed assertion and the state untouched: no partial
    batch is sent and no tombstone applied. *)
Theorem delete_subject_permanent_asserts_before_sending
    sub version (w : world) sequences :
  written_at sub version (_store w) = Returned sequences ->
  sequences = [] \/ Exists (fun s => key_type s = invalid) sequences ->
  delete_subject_permanent sub version w = (Raised assertion_failure, w).
Proof.
  intros Ew Hbad.
  destruct (delete_subject_permanent_run sub version w sequences Ew)
    as [Hnil [Hinv _]].
  destruct Hbad as [E|Hex]; [exact (Hnil E)|exact (Hinv Hex)].
Qed.

(** X9: when the broker refuses the tombstones, [delete_subject_permanent]
    has sent its one batch and raises [kafka::exception] with the
    response's code and message; no tombstone is applied locally and the
    loaded offset stays, whatever base offset the response carries. *)
Theorem delete_subject_permanent_refused_applies_nothing
    sub version (w : world) sequences :
  written_at sub version (_store w) = Returned sequences ->
  sequences <> [] ->
  Forall (fun s => key_type s <> invalid) sequences ->
  exists keys,
    Forall2 (rebuilds sub) sequences keys /\
    forall res c' msg,
      produce_record_batch (tombstones keys) (_client w) = (res, c') ->
      error_code res <> kafka.none ->
      error_message res = Some msg ->
      delete_subject_permanent sub version w
      = (Raised (kafka_exception (error_code res) msg),
         answered (req_produce (tombstones keys)) c' w).
Proof.
  intros Ew Hne Hall.
  assert (Ea : (match version with
                | Some v => ask (get_subject_version_written_at sub v)
                | None => ask (get_subject_written_at sub)
                end : M _) w = (Returned sequences, w)).
  { destruct version; unfold ask; cbn in Ew; rewrite Ew; reflexivity. }
  destruct (build_tombstones_outcome sub sequences)
    as [[_ [ks [Hks Hrun]]]|[Hex _]].
  2:{ exfalso. apply Exists_exists in Hex. destruct Hex as [s [Hin Hs]].
      rewrite Forall_forall in Hall. exact (Hall s Hin Hs). }
  exists ks. split; [exact Hks|].
  intros res c' msg Eres Hec Hmsg.
  unfold delete_subject_permanent, delete_subject_permanent_inner.
  rewrite (bind_returned _ _ _ _ _ Ea).
  rewrite (bind_returned _ _ _ _ _ (Hrun [] [] w)).
  cbn [fst snd app].
  destruct ks as [|k ks]; [inversion Hks; congruence|].
  assert (A1 : assert (negb match k :: ks with
                            | [] => true
                            | _ :: _ => false
                            end) w = (Returned tt, w)) by reflexivity.
  rewrite (bind_returned _ _ _ _ _ A1).
  assert (A2 : assert (0 <? record_count (tombstones (k :: ks))) w
               = (Returned tt, w)).
  { unfold record_count. cbn [tombstones map List.length].
    replace (0 <? _) with true; [reflexivity|].
    symmetry. apply Z.ltb_lt. lia. }
  rewrite (bind_returned _ _ _ _ _ A2).
  assert (A3 : call (req_produce (tombstones (k :: ks)))
                    (produce_record_batch (tombstones (k :: ks))) w
               = (Returned res,
                  answered (req_produce (tombstones (k :: ks))) c' w))
    by (unfold call; rewrite Eres; reflexivity).
  rewrite (bind_returned _ _ _ _ _ A3).
  destruct (error_code res) eqn:Ec; [congruence| |];
    cbn [kafka.is_none negb]; rewrite Hmsg; reflexivity.
Qed.

(** ** Catching up short *)

Lemma advanced_below os l o :
  l < o -> Forall (fun x => x < o) os -> advanced os l < o.
Proof.
  intros Hl Hos. revert l Hl.
  induction Hos as [|x os Hx _ IH]; intros l Hl; [exact Hl|].
  unfold advanced. cbn [fold_left]. apply IH. lia.
Qed.

(** X10: [wait_for] returning normally does not mean the offset is
    loaded.  It makes one pass over what the reader delivers and does not
    advance the loaded offset itself: when every delivered record, if
    any, lies below [offset], it returns normally with the loaded offset
    still below [offset]. *)
Theorem wait_for_may_return_short o (w : world) rs c' :
  _loaded_offset w < o ->
  fetch_batch_reader (_loaded_offset w + 1) (o + 1) (_client w)
  = (Returned rs, c') ->
  Forall (fun p => fst p < o) rs ->
  result (wait_for o) w = Returned tt /\
  _loaded_offset (after (wait_for o) w) < o /\
  (rs = [] ->
   wait_for o w
   = (Returned tt,
      answered (req_fetch (_loaded_offset w + 1) (o + 1)) c' w)).
Proof.
  intros Ho Ef Hrs. unfold result, after.
  rewrite (wait_for_dirty o w Ho). rewrite Ef. cbn [fst snd].
  split; [reflexivity|]. split.
  - cbn [_loaded_offset loaded_at]. apply advanced_below; [exact Ho|].
    apply Forall_map. exact Hrs.
  - intros ->. cbn [map replayed advanced fold_left].
    set (asked := answered _ c' w).
    change (_loaded_offset w) with (_loaded_offset asked).
    change (_store w) with (_store asked).
    rewrite world_eta. reflexivity.
Qed.

(** X11: [delete_subject_impermanent] takes [versions.back()] without a
    guard.  If the store lists no version for a subject it does not flag
    as deleted, the closure reaches [back()] of an empty vector, which
    C++ leaves undefined, before it has sent anything. *)
Theorem delete_subject_impermanent_back_of_no_version
    sub write_at (w : world) :
  get_versions sub include_deleted_yes (_store w) = Returned [] ->
  is_subject_deleted sub (_store w) = Returned false ->
  delete_subject_impermanent_do_write sub write_at w
  = (Raised undefined_behaviour, w) /\
  requests (after (delete_subject_impermanent_do_write sub write_at) w)
  = requests w.
Proof.
  intros Ev Ed. unfold after.
  rewrite (delete_subject_impermanent_no_version sub write_at w Ev Ed).
  split; reflexivity.
Qed.

(** ** What is handed back *)

(** X12: the values handed back are the store's answers from before the
    write.  [write_subject_version] returns the projected id whether it
    has to write or not; [delete_subject_impermanent] returns the list of
    versions it read first, the versions it is deleting included. *)
Theorem returned_values_are_read_before_the_write write_at (w : world) :
  (forall sub def type projected id,
      project_ids sub def type (_store w) = Returned projected ->
      result (write_subject_version_do_write sub def type write_at) w
      = Returned (Some id) ->
      id = ir_id projected) /\
  (forall sub versions returned,
      get_versions sub include_deleted_yes (_store w) = Returned versions ->
      result (delete_subject_impermanent_do_write sub write_at) w
      = Returned (Some returned) ->
      returned = versions).
Proof.
  unfold result. split.
  - intros sub def type projected id Ep.
    destruct (inserted projected) eqn:Hi.
    + rewrite (write_subject_version_reaches_commit _ _ _ _ _ _ Ep Hi).
      rewrite commit_answer.
      destruct (error_code _); [destruct (_ =? _)| |];
        try destruct (error_message _); cbn [fst]; congruence.
    + rewrite (write_subject_version_known_schema_is_noop_at
                 _ _ _ _ _ _ Ep Hi).
      cbn [fst]. congruence.
  - intros sub versions returned Ev.
    destruct (is_subject_deleted sub (_store w)) as [[|]|e] eqn:Ed.
    + rewrite (delete_subject_impermanent_noop _ _ _ _ Ev Ed).
      cbn [fst]. congruence.
    + destruct versions as [|v0 vs].
      * rewrite (delete_subject_impermanent_no_version _ _ _ Ev Ed).
        discriminate.
      * destruct (@exists_last _ (v0 :: vs) ltac:(discriminate))
          as [earlier [last E]].
        rewrite E in *.
        rewrite (delete_subject_impermanent_reaches_commit _ _ _ _ _ Ev Ed).
        rewrite commit_answer.
        destruct (error_code _); [destruct (_ =? _)| |];
          try destruct (error_message _); cbn [fst]; congruence.
    + rewrite (delete_subject_impermanent_deleted_raises _ _ _ _ _ Ev Ed).
      discriminate.
Qed.

(** ** [write_config] as a whole *)





End Properties.

(** * The properties at work on the doubles *)

Import Double.

Local Open Scope string_scope.

(** The four sequenced operations on the writer that has [s1] at offset
    0: each lands at offset 1. *)
Lemma sequenced_attempt_lands_or_retries_witness :
  1 = _loaded_offset seeded + 1 /\
  result (write_subject_version_do_write "s1" "D2" avro 1) seeded
  = Returned (Some 2) /\
  result (write_config_do_write None backward 1) seeded
  = Returned (Some true) /\
  result (delete_subject_version_do_write "s1" 1 1) seeded
  = Returned (Some true) /\
  result (delete_subject_impermanent_do_write "s1" 1) seeded
  = Returned (Some [1]) /\
  _loaded_offset (after (write_config_do_write None backward 1) seeded) = 1.
Proof.
  destruct (sequenced_attempt_lands_or_retries seeded 1 eq_refl)
    as [Hs [Hc [Hv Hi]]].
  split; [reflexivity|].
  split.
  { unfold result.
    erewrite (proj1 (Hs "s1" "D2" avro _ eq_refl eq_refl _ _ eq_refl));
      reflexivity. }
  split.
  { unfold result.
    erewrite (proj1 (Hc None backward compat_none eq_refl
                        ltac:(discriminate) _ _ eq_refl));
      reflexivity. }
  split.
  { unfold result.
    erewrite (proj1 (Hv "s1" 1 _ eq_refl _ _ eq_refl)); reflexivity. }
  split.
  { unfold result.
    erewrite (proj1 (Hi "s1" [] 1 eq_refl eq_refl _ _ eq_refl));
      reflexivity. }
  unfold after.
  erewrite (proj1 (Hc None backward compat_none eq_refl
                      ltac:(discriminate) _ _ eq_refl));
    reflexivity.
Defined.

(** C1, as stated, fails on a broker that refuses the produce request:
    the response has base offset -1, not the predicted 0, and the
    closure of [write_config] does not answer the absent value; it raises
    the broker's error. *)
Lemma produce_error_is_not_a_retry :
  let w := boot empty_registry refusing in
  let write_at := _loaded_offset w + 1 in
  let batch :=
    [(a_config_key {| ck_seq := write_at; ck_node := 1; ck_sub := None |},
      Some (a_config_value {| cv_compat := backward |}))] in
  let response := fst (produce_record_batch batch (_client w)) in
  let attempt := write_config_do_write None backward write_at in
  existing_compatibility None (_store w) = Returned compat_none /\
  requests (after attempt w) = [req_produce batch] /\
  base_offset response <> write_at /\
  result attempt w <> Returned None /\
  result attempt w
  = Raised (kafka_exception (kafka.other 7) "produce failed").
Proof.
  cbv zeta. repeat split; try reflexivity; discriminate.
Qed.


(** The global level set twice: true, then false and nothing sent. *)
Lemma write_config_false_on_noop_true_on_write_witness :
  let first := write_config_do_write None backward 0 in
  result first fresh = Returned (Some true) /\
  existing_compatibility None (_store (after first fresh)) = Returned backward /\
  write_config_do_write None backward 1 (after first fresh)
  = (Returned (Some false), after first fresh).
Proof.
  cbv zeta.
  split; [reflexivity|]. split; [reflexivity|].
  exact (proj2 (proj2 (proj2 (proj2
           (write_config_false_on_noop_true_on_write None backward 0 fresh))))
           eq_refl eq_refl 1).
Defined.

(** The same through the whole operation, catch-up and retry loop
    included: one record in the log at the end. *)
Example write_config_twice :
  let once := after (write_config None backward) fresh in
  result (write_config None backward) fresh = Returned true /\
  result (write_config None backward) once = Returned false /\
  produced (requests (after (write_config None backward) once))
  = [ [(a_config_key {| ck_seq := 0; ck_node := 1; ck_sub := None |},
        Some (a_config_value {| cv_compat := backward |}))] ].
Proof. cbv zeta. repeat split. Qed.

(** The latecomer has nothing loaded: waiting for offset 2 fetches
    offsets 0 to 2 and leaves it with the store of the first node; once
    there, waiting for offset 2 again does nothing. *)
Lemma wait_for_fetches_what_is_missing_witness :
  _loaded_offset latecomer < 2 /\
  requests (after (wait_for 2) latecomer) = [req_fetch 0 3] /\
  _store (after (wait_for 2) latecomer) = _store soft_deleted /\
  _loaded_offset (after (wait_for 2) latecomer) = 2 /\
  wait_for 2 (after (wait_for 2) latecomer)
  = (Returned tt, after (wait_for 2) latecomer).
Proof.
  assert (Hbehind : _loaded_offset latecomer < 2) by (cbn; lia).
  destruct (proj2 (wait_for_fetches_what_is_missing 2 latecomer) Hbehind)
    as [Hasked Hfetched].
  split; [exact Hbehind|]. split; [exact Hasked|].
  change (fst (fetch_batch_reader (_loaded_offset latecomer + 1) (2 + 1)
                                  (_client latecomer)))
    with (Returned (decode_from 0 (log (_client latecomer)) 0 3)) in Hfetched.
  cbv beta iota in Hfetched. unfold after. rewrite Hfetched. cbn [snd].
  split; [reflexivity|]. split; [reflexivity|].
  apply (proj1 (wait_for_fetches_what_is_missing 2 _)).
  vm_compute. discriminate.
Defined.

(** [read_sync] on a broker that cannot list the offsets, and on the
    quiet topic. *)
Lemma read_sync_checks_the_offsets_response_witness :
  well_formed (fst (list_offsets (_client (boot empty_registry lost))))
  = false /\
  result read_sync (boot empty_registry lost)
  = Raised (kafka_exception (kafka.other 6) "error") /\
  well_formed (fst (list_offsets (_client latecomer))) = true /\
  result read_sync latecomer = Returned tt.
Proof.
  split; [reflexivity|]. split.
  - pose proof (read_sync_checks_the_offsets_response
                  (boot empty_registry lost)) as Hr.
    cbv zeta in Hr. destruct Hr as [Hbad _].
    destruct (Hbad ltac:(reflexivity)) as [ec [_ [E [Hec _]]]].
    unfold result. rewrite E.
    rewrite (Hec {| lo_offset := -1; lo_error_code := kafka.other 6 |}
                 eq_refl).
    reflexivity.
  - split; [reflexivity|].
    pose proof (read_sync_checks_the_offsets_response latecomer) as Hr.
    cbv zeta in Hr. destruct Hr as [_ Hgood].
    destruct (Hgood {| lo_offset := 3; lo_error_code := kafka.none |}
                    ltac:(reflexivity) ltac:(reflexivity))
      as [_ [_ Hreturns]].
    apply (Hreturns (decode_from 0 (log (_client latecomer)) 0 3)).
    reflexivity.
Defined.

(** The subject [s1], soft-deleted, has three markers: the permanent
    deletion sends three tombstones in one batch, which the log puts at
    offsets 3, 4 and 5. *)
Lemma delete_subject_permanent_tombstones_every_marker_witness :
  let run := delete_subject_permanent "s1" None in
  written_at "s1" None (_store soft_deleted)
  = Returned
      [ {| seq := 0; node := 1; version := 1; key_type := smk_schema |};
        {| seq := 1; node := 1; version := 0; key_type := smk_config |};
        {| seq := 2; node := 1; version := 1;
           key_type := smk_delete_subject |} ] /\
  result run soft_deleted = Returned [] /\
  produced (requests (after run soft_deleted))
  = (produced (requests soft_deleted)
     ++ [ [ (a_schema_key {| sk_seq := 0; sk_node := 1; sk_sub := "s1";
                             sk_version := 1 |}, None);
            (a_config_key {| ck_seq := 1; ck_node := 1;
                             ck_sub := Some "s1" |}, None);
            (a_delete_subject_key {| dk_seq := 2; dk_node := 1;
                                     dk_sub := "s1" |}, None) ] ])%list /\
  _loaded_offset (after run soft_deleted) = 5.
Proof.
  cbv zeta. split; [reflexivity|].
  pose proof (delete_subject_permanent_tombstones_every_marker
                "s1" None soft_deleted) as Ht.
  cbv zeta in Ht. destruct Ht as [_ Ht].
  destruct (Ht [ {| seq := 0; node := 1; version := 1;
                    key_type := smk_schema |};
                 {| seq := 1; node := 1; version := 0;
                    key_type := smk_config |};
                 {| seq := 2; node := 1; version := 1;
                    key_type := smk_delete_subject |} ]
               ltac:(reflexivity) ltac:(discriminate)
               ltac:(repeat constructor; discriminate))
    as [keys [_ [_ [_ [_ Hrun]]]]].
  destruct (Hrun (fst (produce_record_batch (tombstones keys)
                                            (_client soft_deleted)))
                 (snd (produce_record_batch (tombstones keys)
                                            (_client soft_deleted)))
                 ltac:(apply surjective_pairing) ltac:(reflexivity))
    as [E _].
  split; [unfold result; rewrite E; reflexivity|].
  split; reflexivity.
Defined.

(** The same deletion returns no versions, and so does the deletion of
    the one version. *)
Lemma delete_subject_permanent_returns_no_versions_witness :
  result (delete_subject_permanent "s1" None) soft_deleted = Returned [] /\
  result (delete_subject_permanent "s1" (Some 1)) soft_deleted = Returned [].
Proof.
  pose proof (delete_subject_permanent_returns_no_versions
                "s1" None soft_deleted) as [_ Hall].
  pose proof (delete_subject_permanent_returns_no_versions
                "s1" (Some 1) soft_deleted) as [_ Hone].
  split.
  - destruct (Hall [ {| seq := 0; node := 1; version := 1;
                        key_type := smk_schema |};
                     {| seq := 1; node := 1; version := 0;
                        key_type := smk_config |};
                     {| seq := 2; node := 1; version := 1;
                        key_type := smk_delete_subject |} ]
                   ltac:(reflexivity) ltac:(discriminate)
                   ltac:(repeat constructor; discriminate))
      as [keys [_ Hreturns]].
    apply Hreturns. reflexivity.
  - destruct (Hone [ {| seq := 0; node := 1; version := 1;
                        key_type := smk_schema |} ]
                   ltac:(reflexivity) ltac:(discriminate)
                   ltac:(repeat constructor; discriminate))
      as [keys [_ Hreturns]].
    apply Hreturns. reflexivity.
Defined.

(** C4, as stated, fails on a broker that refuses the produce request:
    [write_config] ends with the broker's error, which is neither a
    value nor [exhausted_retries]. *)
Lemma produce_error_ends_sequenced_write :
  let run := result (write_config None backward)
                    (boot empty_registry refusing) in
  run = Raised (kafka_exception (kafka.other 7) "produce failed") /\
  (forall v, run <> Returned v) /\
  run <> Raised exhausted_retries.
Proof. cbv zeta. repeat split; discriminate. Qed.

(** One collision, then the write lands: two batches produced. *)
Example one_collision_then_success :
  let run := write_config None backward in
  result run (boot empty_registry contended) = Returned true /\
  List.length (produced (requests (after run (boot empty_registry contended))))
  = 2%nat /\
  _loaded_offset (after run (boot empty_registry contended)) = 2.
Proof. cbv zeta. repeat split. Qed.

(** Collisions without end: the budget is spent after five batches. *)
Example persistent_collisions_exhaust_the_budget :
  let run := write_config None backward in
  result run (boot empty_registry crowded) = Raised exhausted_retries /\
  List.length (produced (requests (after run (boot empty_registry crowded))))
  = 5%nat.
Proof. cbv zeta. repeat split. Qed.

(** The latecomer that only catches up has the store of the writer. *)
Example replay_rebuilds_the_store :
  _store (after read_sync latecomer) = _store soft_deleted /\
  _loaded_offset (after read_sync latecomer) = _loaded_offset soft_deleted.
Proof. split; reflexivity. Qed.

(** * The permits are back before the bodies end *)

Lemma lambdas_leave_the_semaphores s :
  Permits._write_sem (Permits.delete_subject_permanent_lambda s)
  = Permits._write_sem s /\
  Permits._wait_for_sem (Permits.wait_for_lambda s)
  = Permits._wait_for_sem s.
Proof.
  unfold Permits.delete_subject_permanent_lambda, Permits.wait_for_lambda,
    Permits.get_units.
  split.
  - destruct (Nat.leb_spec 1 (Permits._write_sem s)); cbn; lia.
  - destruct (Nat.leb_spec 1 (Permits._wait_for_sem s)); cbn; lia.
Qed.

Lemma begun_mutations_pile_up n s :
  Permits.mutations_in_flight
    (Permits.schedule (repeat Permits.begin_delete_subject_permanent n) s)
  = (n + Permits.mutations_in_flight s)%nat.
Proof.
  revert s. induction n as [|n IH]; intros s; [reflexivity|].
  cbn [repeat]. unfold Permits.schedule in *. cbn [fold_left].
  rewrite IH. unfold Permits.take, Permits.delete_subject_permanent_lambda.
  destruct (Permits.get_units _ _). cbn. lia.
Qed.

(** C9: the permits do not keep a second body out.  Two
    calls of [delete_subject_permanent] reach shard 0 one after the
    other, each lambda running while the body the other started is
    suspended at its produce; likewise two calls of [wait_for] on offsets
    not yet loaded.  Both bodies are in flight at once, and both fetches,
    with each semaphore holding its unit all the while: the units came
    back when the lambdas returned. *)
Theorem permits_are_back_before_the_bodies_end :
  let s := Permits.schedule
             [ Permits.begin_delete_subject_permanent;
               Permits.begin_delete_subject_permanent;
               Permits.begin_wait_for;
               Permits.begin_wait_for ] Permits.shard0 in
  Permits.mutations_in_flight s = 2%nat /\
  Permits._write_sem s = 1%nat /\
  Permits.fetches_in_flight s = 2%nat /\
  Permits._wait_for_sem s = 1%nat.
Proof. cbv zeta. repeat split. Qed.

(** A body that keeps its unit to its end is alone in flight, whatever
    the order in which the shard is given begins and ends. *)
Lemma held_permit_one_in_flight ts :
  let s := Permits.schedule_held ts Permits.shard0 in
  (Permits._write_sem s + Permits.mutations_in_flight s = 1)%nat /\
  (Permits.mutations_in_flight s <= 1)%nat.
Proof.
  cbv zeta.
  assert (Inv : forall s,
             (Permits._write_sem s + Permits.mutations_in_flight s = 1)%nat ->
             (Permits._write_sem (Permits.schedule_held ts s)
              + Permits.mutations_in_flight (Permits.schedule_held ts s)
              = 1)%nat).
  { induction ts as [|t ts IH]; intros s Hs; [exact Hs|].
    unfold Permits.schedule_held in *. cbn [fold_left]. apply IH.
    destruct t; cbn [Permits.take_held].
    - destruct (Permits._write_sem s) eqn:E; cbn; lia.
    - destruct (Permits.mutations_in_flight s) eqn:E; cbn; lia. }
  specialize (Inv Permits.shard0 eq_refl). split; [exact Inv|lia].
Qed.

Lemma turns_leave_the_semaphores t s :
  Permits._write_sem (Permits.take t s) = Permits._write_sem s /\
  Permits._wait_for_sem (Permits.take t s) = Permits._wait_for_sem s.
Proof.
  destruct t; cbn [Permits.take].
  - split; [apply lambdas_leave_the_semaphores|].
    unfold Permits.delete_subject_permanent_lambda.
    destruct (Permits.get_units _ _). reflexivity.
  - split; reflexivity.
  - split; [|apply lambdas_leave_the_semaphores].
    unfold Permits.wait_for_lambda.
    destruct (Permits.get_units _ _). reflexivity.
  - split; reflexivity.
Qed.

(** X13: start with a unit in each semaphore and let shard 0 run the
    lambdas of [delete_subject_permanent] and [wait_for] and resume
    their bodies in whatever order.  Then both semaphores show between
    any two turns the units they started with, so the [get_units] of the
    next lambda is resolved at once: among these lambdas none ever
    waits, and as many bodies are in flight as were begun and not
    ended. *)
Theorem semaphores_never_hold_anything_back ts n s :
  (1 <= Permits._write_sem s)%nat ->
  (1 <= Permits._wait_for_sem s)%nat ->
  let now := Permits.schedule ts s in
  fst (Permits.get_units (Permits._write_sem now) 1) = Permits.resolved 1 /\
  fst (Permits.get_units (Permits._wait_for_sem now) 1) = Permits.resolved 1 /\
  Permits._write_sem now = Permits._write_sem s /\
  Permits._wait_for_sem now = Permits._wait_for_sem s /\
  Permits.mutations_in_flight
    (Permits.schedule (repeat Permits.begin_delete_subject_permanent n) now)
  = (n + Permits.mutations_in_flight now)%nat.
Proof.
  intros Hw Hf. cbv zeta.
  assert (Hsems : forall ts s,
             Permits._write_sem (Permits.schedule ts s) = Permits._write_sem s /\
             Permits._wait_for_sem (Permits.schedule ts s)
             = Permits._wait_for_sem s).
  { clear. intros ts. induction ts as [|t ts IH]; intros s; [split; reflexivity|].
    unfold Permits.schedule in *. cbn [fold_left].
    destruct (IH (Permits.take t s)) as [-> ->].
    apply turns_leave_the_semaphores. }
  destruct (Hsems ts s) as [-> ->].
  unfold Permits.get_units.
  destruct (Nat.leb_spec 1 (Permits._write_sem s)); [|lia].
  destruct (Nat.leb_spec 1 (Permits._wait_for_sem s)); [|lia].
  repeat split. apply begun_mutations_pile_up.
Qed.

(** * More runs on the doubles *)

Import Canned.

(** The line answers with an error code at the very offset asked for:
    the error is raised all the same. *)
Lemma produce_and_check_error_wins_witness :
  let w := writer store_down (line_failing 0) (-1) in
  let response := fst (produce_record_batch [] (_client w)) in
  base_offset response = 0 /\
  error_code response <> kafka.none /\
  result (produce_and_check 0 []) w
  = Raised (kafka_exception (kafka.other 7) "not leader").
Proof.
  cbv zeta. split; [reflexivity|]. split; [discriminate|].
  pose proof (produce_and_check_error_wins
                0 [] (writer store_down (line_failing 0) (-1))) as Hp.
  cbv zeta in Hp. destruct Hp as [_ [_ [_ Hraise]]].
  exact (Hraise "not leader" ltac:(discriminate) eq_refl).
Defined.

(** Node 2 gets in first: our attempt at offset 0 ends with a retry and
    nothing of it stays in the store. *)
Lemma failed_attempt_leaves_no_trace_witness :
  let w := boot empty_registry contended in
  fst (attempt (set_compatibility None backward) 0 w) = with_retry /\
  _store (snd (attempt (set_compatibility None backward) 0 w))
  = empty_registry /\
  _loaded_offset (snd (attempt (set_compatibility None backward) 0 w)) = -1.
Proof.
  cbv zeta. split; [reflexivity|].
  apply (failed_attempt_leaves_no_trace
           (set_compatibility None backward) 0
           (boot empty_registry contended)).
  vm_compute. discriminate.
Defined.

(** The same attempt sent one record, keyed at offset 0 by node 1. *)
Lemma attempt_sends_one_sequenced_record_witness :
  let w := boot empty_registry contended in
  exists r,
    sequenced_record 0 1 r /\
    requests (snd (attempt (set_compatibility None backward) 0 w))
    = [req_produce [r]].
Proof.
  cbv zeta.
  destruct (attempt_sends_one_sequenced_record
              (set_compatibility None backward) 0
              (boot empty_registry contended)) as [[_ Hno]|Hsent].
  - exfalso. apply Hno. reflexivity.
  - exact Hsent.
Defined.

(** The subject [s1] is soft-deleted already. *)
Lemma delete_subject_impermanent_already_deleted_witness :
  get_versions "s1" include_deleted_yes (_store soft_deleted) = Returned [1] /\
  is_subject_deleted "s1" (_store soft_deleted) = Returned true /\
  delete_subject_impermanent_do_write "s1" 3 soft_deleted
  = (Returned (Some [1]), soft_deleted).
Proof.
  split; [reflexivity|]. split; [reflexivity|].
  exact (proj1 (delete_subject_impermanent_already_deleted
                  "s1" 3 soft_deleted [1] eq_refl eq_refl)).
Defined.

(** Version 1 of [s1] is soft-deleted, and soft-deleting it again sends
    its record again. *)
Lemma delete_subject_version_always_writes_witness :
  let w := after (delete_subject_version "s1" 1) seeded in
  let ss := {| ss_sub := "s1"; ss_version := 1; ss_id := 1; ss_type := avro;
               ss_definition := "D1"; ss_deleted := is_deleted_yes |} in
  get_subject_schema "s1" 1 include_deleted_yes (_store w) = Returned ss /\
  produced (requests (after (delete_subject_version_do_write "s1" 1 2) w))
  = (produced (requests w)
     ++ [ [ (a_schema_key {| sk_seq := 2; sk_node := 1; sk_sub := "s1";
                             sk_version := 1 |},
             Some (a_schema_value
                     {| sv_sub := "s1"; sv_version := 1; sv_type := avro;
                        sv_id := 1; sv_schema := "D1";
                        sv_deleted := is_deleted_yes |})) ] ])%list.
Proof.
  cbv zeta.
  assert (Hs : get_subject_schema
                 "s1" 1 include_deleted_yes
                 (_store (after (delete_subject_version "s1" 1) seeded))
               = Returned {| ss_sub := "s1"; ss_version := 1; ss_id := 1;
                             ss_type := avro; ss_definition := "D1";
                             ss_deleted := is_deleted_yes |})
    by reflexivity.
  split; [exact Hs|].
  rewrite (proj2 (delete_subject_version_always_writes
                    "s1" 1 2 (after (delete_subject_version "s1" 1) seeded))
                 _ Hs).
  reflexivity.
Defined.

(** A store that is down, and one that fails at the second query. *)
Lemma store_exception_ends_the_operation_witness :
  let w := writer store_down (line_failing 0) (-1) in
  let w' := writer store_half (line_failing 0) (-1) in
  let e := collaborator_exception "store is down" in
  write_subject_version_do_write "s1" "D1" avro 0 w = (Raised e, w) /\
  write_config_do_write None backward 0 w = (Raised e, w) /\
  delete_subject_version_do_write "s1" 1 0 w = (Raised e, w) /\
  delete_subject_impermanent_do_write "s1" 0 w = (Raised e, w) /\
  delete_subject_impermanent_do_write "s1" 0 w' = (Raised e, w') /\
  delete_subject_permanent "s1" None w = (Raised e, w).
Proof.
  cbv zeta.
  destruct (store_exception_ends_the_operation
              (writer store_down (line_failing 0) (-1))
              (collaborator_exception "store is down") 0)
    as [H1 [H2 [H3 [H4 [_ H6]]]]].
  destruct (store_exception_ends_the_operation
              (writer store_half (line_failing 0) (-1))
              (collaborator_exception "store is down") 0)
    as [_ [_ [_ [_ [H5 _]]]]].
  split; [exact (H1 "s1" "D1" avro eq_refl)|].
  split; [exact (H2 None backward eq_refl)|].
  split; [exact (H3 "s1" 1 eq_refl)|].
  split; [exact (H4 "s1" eq_refl)|].
  split; [exact (H5 "s1" [1] eq_refl eq_refl)|].
  exact (H6 "s1" None eq_refl).
Defined.

(** One good marker and one of no known key type: nothing is sent. *)
Lemma delete_subject_permanent_asserts_before_sending_witness :
  let w := writer store_odd (line_failing 0) 5 in
  Exists (fun s => key_type s = invalid)
         [ {| seq := 4; node := 1; version := 1; key_type := smk_schema |};
           {| seq := 5; node := 1; version := 1; key_type := invalid |} ] /\
  delete_subject_permanent "s1" None w = (Raised assertion_failure, w).
Proof.
  cbv zeta.
  assert (Hex : Exists (fun s => key_type s = invalid)
                  [ {| seq := 4; node := 1; version := 1;
                       key_type := smk_schema |};
                    {| seq := 5; node := 1; version := 1;
                       key_type := invalid |} ])
    by (right; left; reflexivity).
  split; [exact Hex|].
  exact (delete_subject_permanent_asserts_before_sending
           "s1" None (writer store_odd (line_failing 0) 5) _
           eq_refl (or_intror Hex)).
Defined.

(** The broker refuses the three tombstones of [s1]: the store keeps
    the subject and the loaded offset stays at 2. *)
Lemma delete_subject_permanent_refused_applies_nothing_witness :
  let w := {| _loaded_offset := 2; _store := _store soft_deleted;
              _client := refusing; cfg_node_id := 1; requests := [] |} in
  result (delete_subject_permanent "s1" None) w
  = Raised (kafka_exception (kafka.other 7) "produce failed") /\
  _store (after (delete_subject_permanent "s1" None) w) = _store soft_deleted /\
  _loaded_offset (after (delete_subject_permanent "s1" None) w) = 2.
Proof.
  cbv zeta.
  set (w := {| _loaded_offset := 2; _store := _store soft_deleted;
               _client := refusing; cfg_node_id := 1; requests := [] |}).
  pose proof (delete_subject_permanent_refused_applies_nothing
                "s1" None w) as Ht.
  destruct (Ht
              [ {| seq := 0; node := 1; version := 1;
                   key_type := smk_schema |};
                {| seq := 1; node := 1; version := 0;
                   key_type := smk_config |};
                {| seq := 2; node := 1; version := 1;
                   key_type := smk_delete_subject |} ]
              ltac:(reflexivity) ltac:(discriminate)
              ltac:(repeat constructor; discriminate))
    as [keys [_ Hrefused]].
  pose proof (Hrefused
                (fst (produce_record_batch (tombstones keys) (_client w)))
                (snd (produce_record_batch (tombstones keys) (_client w)))
                "produce failed"
                ltac:(apply surjective_pairing)
                ltac:(cbn; discriminate) ltac:(reflexivity)) as E.
  unfold result, after. rewrite E. repeat split.
Defined.

(** The latecomer waits for offset 7 on a topic of three records: it
    gets them, returns normally, and has loaded offset 2. *)
Lemma wait_for_may_return_short_witness :
  _loaded_offset latecomer < 7 /\
  result (wait_for 7) latecomer = Returned tt /\
  _loaded_offset (after (wait_for 7) latecomer) < 7 /\
  _loaded_offset (after (wait_for 7) latecomer) = 2.
Proof.
  assert (Hbehind : _loaded_offset latecomer < 7) by (cbn; lia).
  assert (Hfetch : fetch_batch_reader (_loaded_offset latecomer + 1) (7 + 1)
                                      (_client latecomer)
                   = (Returned (decode_from 0 (log (_client latecomer)) 0 8),
                      _client latecomer)) by reflexivity.
  assert (Hbelow : Forall (fun p : offset * log_record => fst p < 7)
                          (decode_from 0 (log (_client latecomer)) 0 8))
    by (vm_compute; repeat constructor).
  destruct (wait_for_may_return_short 7 latecomer _ _ Hbehind Hfetch Hbelow)
    as [Hreturns [Hshort _]].
  split; [exact Hbehind|]. split; [exact Hreturns|].
  split; [exact Hshort|reflexivity].
Defined.

(** A store that lists no version for a subject it does not flag. *)
Lemma delete_subject_impermanent_back_of_no_version_witness :
  let w := writer store_odd (line_failing 0) 5 in
  get_versions "s1" include_deleted_yes (_store w) = Returned [] /\
  delete_subject_impermanent_do_write "s1" 6 w
  = (Raised undefined_behaviour, w).
Proof.
  cbv zeta. split; [reflexivity|].
  exact (proj1 (delete_subject_impermanent_back_of_no_version
                  "s1" 6 (writer store_odd (line_failing 0) 5)
                  eq_refl eq_refl)).
Defined.

(** The id of the known schema, and the versions of [s1] as they were
    before its soft deletion. *)
Lemma returned_values_are_read_before_the_write_witness :
  result (write_subject_version_do_write "s1" "D1" avro 1) seeded
  = Returned (Some 1) /\
  1 = ir_id {| ir_version := 1; ir_id := 1; inserted := false |} /\
  result (delete_subject_impermanent_do_write "s1" 1) seeded
  = Returned (Some [1]) /\
  [1] = [1].
Proof.
  destruct (returned_values_are_read_before_the_write 1 seeded) as [Hid Hvs].
  split; [reflexivity|].
  split; [exact (Hid "s1" "D1" avro _ 1 eq_refl eq_refl)|].
  split; [reflexivity|].
  exact (Hvs "s1" [1] [1] eq_refl eq_refl).
Defined.

(** From the state the shard starts in, after two deletions begun and a
    fetch begun and ended: the next [get_units] is resolved at once and
    three more deletions make five in flight. *)
Lemma semaphores_never_hold_anything_back_witness :
  let now := Permits.schedule
               [ Permits.begin_delete_subject_permanent;
                 Permits.begin_wait_for;
                 Permits.begin_delete_subject_permanent;
                 Permits.end_wait_for ] Permits.shard0 in
  (1 <= Permits._write_sem Permits.shard0)%nat /\
  fst (Permits.get_units (Permits._write_sem now) 1) = Permits.resolved 1 /\
  fst (Permits.get_units (Permits._wait_for_sem now) 1) = Permits.resolved 1 /\
  Permits.mutations_in_flight
    (Permits.schedule (repeat Permits.begin_delete_subject_permanent 3) now)
  = 5%nat.
Proof.
  cbv zeta.
  destruct (semaphores_never_hold_anything_back
              [ Permits.begin_delete_subject_permanent;
                Permits.begin_wait_for;
                Permits.begin_delete_subject_permanent;
                Permits.end_wait_for ] 3 Permits.shard0
              (le_n 1) (le_n 1))
    as [Hw [Hf [_ [_ Hn]]]].
  split; [exact (le_n 1)|]. split; [exact Hw|]. split; [exact Hf|].
  exact Hn.
Defined.

(** * [write_config] against a rival *)

(** The store double reports the level its applier has just set, in
    every state. *)
Lemma registry_reports_the_level_applied o me sub compat (st : registry) :
  existing_compatibility
    sub
    (apply_config o {| ck_seq := o; ck_node := me; ck_sub := sub |}
                  (Some {| cv_compat := compat |}) st)
  = Returned compat.
Proof.
  destruct sub as [s|]; cbn.
  - unfold double_apply_config, double_get_compatibility_sub. cbn.
    rewrite Z.eqb_refl. cbn. rewrite String.eqb_refl. reflexivity.
  - unfold double_apply_config, double_get_compatibility. cbn.
    rewrite Z.eqb_refl. reflexivity.
Qed.


